(** * Conviction voting: the conviction engine of [app/src/lib/conviction.js]

    A shallow embedding of the JavaScript module and the proofs of its
    documented properties.

    - JavaScript numbers are IEEE 754 binary64 values: they are modelled by
      Rocq's primitive [float]s, whose operations are specified against
      [SpecFloat] by the axioms of [FloatAxioms].
    - Block numbers and time units ([time], [currentTime], [timeUnit],
      [timePassed]) are integers in the data model; they are modelled by [Z]
      (the doubles that hold them are exact below 2^53).
    - [a ** t] and [Math.log] are implementation-approximated in ECMA-262:
      they are taken from a class [JSMath] that fixes only what the standard
      fixes.
    - Arrays live in a heap and the functions that take arrays run in a state
      monad over it, so that copies ([[...stakes]]) and in-place updates
      ([pop], [push]) are distinguished. *)

From Stdlib Require Import ZArith QArith Qfield Lqa Floats Lia Sorted.
From stdpp Require Import base option list gmap strings.
From Stdlib Require Import Qpower.
From Stdlib Require Reals Lra.

#[local] Set Warnings "-inexact-float".

(** ** Arithmetic interface

    The closed formulas of the module use only field operations and integer
    powers.  They are written once over this interface and read at two
    instances: the doubles, which is what runs, and the rationals, which is
    the algebra the formulas were derived in. *)

Class Arith (N : Type) := {
  zero : N;
  one : N;
  add : N -> N -> N;
  sub : N -> N -> N;
  mul : N -> N -> N;
  div : N -> N -> N;
  opp : N -> N;
  pow : N -> Z -> N;
}.

Declare Scope arith_scope.
Delimit Scope arith_scope with A.
Notation "0" := zero : arith_scope.
Notation "1" := one : arith_scope.
Infix "+" := add : arith_scope.
Infix "-" := sub : arith_scope.
Infix "*" := mul : arith_scope.
Infix "/" := div : arith_scope.
Notation "- x" := (opp x) : arith_scope.
Infix "**" := pow (at level 30, right associativity) : arith_scope.

(** What ECMA-262 fixes about [**] (Number::exponentiate) and [Math.log]; the
    other results are implementation-approximated. *)
Class JSMath := {
  Math_pow : float -> Z -> float;
  Math_log : float -> float;
  (** an exponent of zero gives 1, whatever the base *)
  pow_zero : forall b, Math_pow b 0 = 1%float;
  (** [Math.log] of NaN or of a number below zero is NaN *)
  log_nan : Math_log nan = nan;
  log_neg : forall x, (x <? 0)%float = true -> Math_log x = nan;
  (** [Math.log] of +0 or -0 is -Infinity, of 1 is +0, of +Infinity is
      +Infinity *)
  log_zero : forall x, (x =? 0)%float = true -> Math_log x = neg_infinity;
  log_one : Math_log 1 = 0%float;
  log_infinity : Math_log infinity = infinity;
}.

#[export] Instance float_arith `{JSMath} : Arith float := {|
  zero := 0%float;
  one := 1%float;
  add := PrimFloat.add;
  sub := PrimFloat.sub;
  mul := PrimFloat.mul;
  div := PrimFloat.div;
  opp := PrimFloat.opp;
  pow := Math_pow;
|}.

#[export] Instance Q_arith : Arith Q := {|
  zero := 0%Q;
  one := 1%Q;
  add := Qplus;
  sub := Qminus;
  mul := Qmult;
  div := Qdiv;
  opp := Qopp;
  pow := Qpower;
|}.

(** A third instance, the real numbers, in which [Math.log] has an exact
    counterpart, the natural logarithm. *)
#[export] Instance R_arith : Arith Rdefinitions.R := {|
  zero := Rdefinitions.IZR 0;
  one := Rdefinitions.IZR 1;
  add := Rdefinitions.Rplus;
  sub := Rdefinitions.Rminus;
  mul := Rdefinitions.Rmult;
  div := Rdefinitions.Rdiv;
  opp := Rdefinitions.Ropp;
  pow := Rfunctions.powerRZ;
|}.

(** ** The closed formulas *)

Section Formulas.
Context {N : Type} `{Arith N}.
Open Scope arith_scope.

(** [y0 * a ^ t + (x * (1 - a ^ t)) / (1 - a)] *)
Definition calculateConviction (timePassed : Z) (initConv amount alpha : N) : N :=
  let t := timePassed in
  let y0 := initConv in
  let x := amount in
  let a := alpha in
  let y := y0 * a ** t + (x * (1 - a ** t)) / (1 - a) in
  y.

Definition getMinNeededStake (threshold alpha : N) : N :=
  let y := threshold in
  let a := alpha in
  (- a) * y + y.

Definition getMaxConviction (amount alpha : N) : N :=
  let x := amount in
  let a := alpha in
  x / (1 - a).
End Formulas.

(** The two functions that need [Math.log], a comparison or [Infinity] are
    stated on the doubles only. *)
Section FloatFormulas.
Context `{JSMath}.
Open Scope float_scope.

Definition getRemainingTimeToPass (threshold conviction amount alpha : float) : float :=
  let a := alpha in
  let y := threshold in
  let y0 := conviction in
  let x := amount in
  Math_log (((a - 1) * y + x) / ((a - 1) * y0 + x)) / Math_log a.

Definition calculateThreshold (requested funds supply alpha beta rho : float) : float :=
  let share := requested / funds in
  if share <? beta then
    (rho * supply) / (1 - alpha) / Math_pow (beta - share) 2
  else
    infinity.
End FloatFormulas.

(** [getRemainingTimeToPass] read over the real numbers, with the natural
    logarithm for [Math.log]. *)
Module Exact.
Import Rdefinitions.
Open Scope R_scope.

Definition getRemainingTimeToPass (threshold conviction amount alpha : R) : R :=
  let a := alpha in
  let y := threshold in
  let y0 := conviction in
  let x := amount in
  Rpower.ln (((a - 1) * y + x) / ((a - 1) * y0 + x)) / Rpower.ln a.
End Exact.

(** A reference [JSMath], used to run the functions on concrete inputs:
    powers by repeated multiplication, and a logarithm that is exact on the
    special values and a first-order rational approximant elsewhere. *)
Definition pow_ref (b : float) (e : Z) : float :=
  match e with
  | Z0 => 1
  | Zpos p => Pos.iter (fun r => r * b) 1 p
  | Zneg p => 1 / Pos.iter (fun r => r * b) 1 p
  end%float.

Definition log_ref (x : float) : float :=
  (if is_nan x then nan
   else if x <? 0 then nan
   else if x =? 0 then neg_infinity
   else if x =? infinity then infinity
   else 2 * (x - 1) / (x + 1))%float.

(** The exact value of a finite double, as a rational (0 for the others). *)
Definition exact_value (x : float) : Q :=
  match Prim2SF x with
  | S754_finite s m e => (if s then -1 else 1) * inject_Z (Z.pos m) * Qpower 2 e
  | _ => 0
  end.

(** ** Values and stake events *)

(** A property that may be absent reads as [undefined]; arithmetic converts
    it with ToNumber. *)
Inductive value :=
  | undefined
  | number (f : float).

Definition ToNumber (v : value) : float :=
  match v with
  | undefined => nan
  | number f => f
  end.

(** A stake event.  The objects built by [stakesByEntity] carry neither
    [entity] nor [tokensStaked]. *)
Record Stake := mkStake {
  time : Z;
  entity : option string;
  tokensStaked : value;
  totalTokensStaked : value;
  conviction : value;
}.

(** ** Arrays, the heap and the monad of array programs *)

Abbreviation loc := positive.

Inductive array :=
  | StakeArray (xs : list Stake)
  | NumberArray (xs : list float).

Abbreviation heap := (gmap loc array).

(** A computation reads and updates the heap; [None] is a thrown
    TypeError. *)
Definition M (A : Type) : Type := heap -> option (A * heap).

Definition ret {A} (a : A) : M A := fun h => Some (a, h).

Definition bind {A B} (m : M A) (k : A -> M B) : M B :=
  fun h => match m h with
           | Some (a, h') => k a h'
           | None => None
           end.

Definition throw {A} : M A := fun _ => None.

Notation "'let!' x ':=' c1 'in' c2" := (bind c1 (fun x => c2))
  (at level 10, x name, c1 at level 100, c2 at level 200).
Notation "'let!' ' pat ':=' c1 'in' c2" :=
  (bind c1 (fun x => match x with pat => c2 end))
  (at level 10, pat pattern, c1 at level 100, c2 at level 200).
Notation "'run!' c1 'in' c2" := (bind c1 (fun _ => c2))
  (at level 10, c1 at level 100, c2 at level 200).

Definition alloc (a : array) : M loc :=
  fun h => let l := fresh (dom h) in Some (l, <[l := a]> h).

Definition read_stakes (l : loc) : M (list Stake) :=
  fun h => match h !! l with
           | Some (StakeArray xs) => Some (xs, h)
           | _ => None
           end.

Definition read_numbers (l : loc) : M (list float) :=
  fun h => match h !! l with
           | Some (NumberArray xs) => Some (xs, h)
           | _ => None
           end.

Definition write (l : loc) (a : array) : M unit :=
  fun h => Some (tt, <[l := a]> h).

(** [[...xs]]: a fresh array with the same elements. *)
Definition spread_stakes (l : loc) : M loc :=
  let! xs := read_stakes l in alloc (StakeArray xs).

Definition spread_numbers (l : loc) : M loc :=
  let! xs := read_numbers l in alloc (NumberArray xs).

(** [xs.pop()]: removes the last element of [xs] in place and returns it
    ([undefined] on an empty array). *)
Definition pop_stakes (l : loc) : M (option Stake) :=
  let! xs := read_stakes l in
  run! write l (StakeArray (removelast xs)) in
  ret (last xs).

Definition pop_numbers (l : loc) : M value :=
  let! xs := read_numbers l in
  run! write l (NumberArray (removelast xs)) in
  ret (from_option number undefined (last xs)).

(** [xs.push(v)]: appends in place. *)
Definition push_number (l : loc) (v : float) : M unit :=
  let! xs := read_numbers l in write l (NumberArray (xs ++ [v])).

(** [xs.filter(p)] and [xs.map(f)] build a fresh array and leave [xs] alone. *)
Definition filter_stakes (p : Stake -> bool) (l : loc) : M loc :=
  let! xs := read_stakes l in alloc (StakeArray (List.filter p xs)).

Definition map_stakes (f : Stake -> Stake) (l : loc) : M loc :=
  let! xs := read_stakes l in alloc (StakeArray (f <$> xs)).

(** [xs.reduce(f, init)] with a callback that touches no array. *)
Definition reduce_stakes {A} (f : A -> Stake -> A) (init : A) (l : loc) : M A :=
  let! xs := read_stakes l in ret (foldl f init xs).

Definition length_stakes (l : loc) : M nat :=
  let! xs := read_stakes l in ret (length xs).

(** [xs[i]] *)
Definition get_stake (l : loc) (i : nat) : M (option Stake) :=
  let! xs := read_stakes l in ret (xs !! i).

(** [t % timeUnit === 0] on integers: the remainder takes the sign of [t]
    ([-0 === 0] holds), and [t % 0] is NaN. *)
Definition is_multiple (t timeUnit : Z) : bool :=
  if (timeUnit =? 0)%Z then false else (Z.rem t timeUnit =? 0)%Z.

(** [solidityConviction !== conviction]: a property that may be absent
    against a number.  [undefined] differs from every number, NaN from
    everything, and the two zeros are equal. *)
Definition strict_neq (v : value) (c : float) : bool :=
  match v with
  | undefined => true
  | number f => negb (f =? c)%float
  end.

(** Ticks are doubles in the source, where [initTime++] and [t++] are exact
    only below 2^53.  The loops of [getConvictionHistory], which count in [Z]
    here, are those of the source while the current block and the start of
    the window, [currentTime - 50 * timeUnit - 1], are below 2^53 in
    magnitude; beyond that the source's counters stop advancing and its loops
    do not end. *)
Definition safe_ticks (currentTime timeUnit : Z) : Prop :=
  (Z.abs currentTime < 9007199254740992
   /\ Z.abs (currentTime - 50 * timeUnit - 1) < 9007199254740992)%Z.

(** ** The functions over stake arrays *)

(** The variables of the sampling loop of [getConvictionHistory]. *)
Record locals := mkLocals {
  oldAmount : value;
  lastConv : value;
  timePassed : Z;
  i : nat;
}.

Section Engine.
Context `{JSMath}.

Definition getCurrentConviction (stakes : loc) (currentTime : Z) (alpha : float) : M float :=
  let! copy := spread_stakes stakes in
  let! lastStake := pop_stakes copy in
  match lastStake with
  | Some s =>
      let time := s.(time) in
      let totalTokensStaked := s.(totalTokensStaked) in
      let conviction := s.(conviction) in
      (* Calculate from last stake to now *)
      ret (calculateConviction (currentTime - time)
             (ToNumber conviction) (ToNumber totalTokensStaked) alpha)
  | None => ret 0%float
  end.

Definition stakesByEntity (stakes : loc) (entity : string) : M loc :=
  let! filtered :=
    filter_stakes (fun '(mkStake _ _entity _ _ _) => bool_decide (Some entity = _entity)) stakes in
  map_stakes
    (fun '(mkStake time _ tokensStaked _ conviction) =>
       {| time := time;
          entity := None;
          tokensStaked := undefined;
          totalTokensStaked := tokensStaked;
          conviction := conviction |})
    filtered.

(** The result is the object [{ conviction, time, totalTokensStaked }],
    here the triple in that order. *)
Definition convictionFromStakes (stakes : loc) (alpha : float) : M (float * Z * value) :=
  reduce_stakes
    (fun '(lastConv, lastTime, oldAmount) stake =>
       let amount := stake.(totalTokensStaked) in
       let timePassed := (stake.(time) - lastTime)%Z in
       let lastConv := calculateConviction timePassed lastConv (ToNumber oldAmount) alpha in
       let lastTime := stake.(time) in
       (lastConv, lastTime, amount))
    (0%float, 0%Z, number 0) (* Initial conviction, time, and amount to 0 *)
    stakes.

Definition getCurrentConvictionByEntity
    (stakes : loc) (entity : string) (currentTime : Z) (alpha : float) : M float :=
  let! entityStakes := stakesByEntity stakes entity in
  let! len := length_stakes entityStakes in
  if (0 <? len)%nat then
    let! '(conviction, time, totalTokensStaked) := convictionFromStakes entityStakes alpha in
    (* Calculate from last stake to now *)
    ret (calculateConviction (currentTime - time)
           conviction (ToNumber totalTokensStaked) alpha)
  else ret 0%float.

(** [while (initTime < 0) { if (initTime % timeUnit === 0) history.push(0); initTime++ }]
    The loop runs [-initTime] times at most; [fuel] counts them down. *)
Fixpoint pad_loop (fuel : nat) (history : loc) (timeUnit initTime : Z) : M Z :=
  match fuel with
  | O => ret initTime
  | S fuel =>
      if (initTime <? 0)%Z then
        run! (if is_multiple initTime timeUnit
              then push_number history 0
              else ret tt) in
        pad_loop fuel history timeUnit (initTime + 1)
      else ret initTime
  end.

(** [while (recentStakes.length > i && recentStakes[i].time <= t) { ... }]
    Each turn advances [i], so the loop runs once per remaining event at
    most. *)
Fixpoint consume_loop (fuel : nat) (history recentStakes : loc) (t : Z) (st : locals)
    : M locals :=
  match fuel with
  | O => ret st
  | S fuel =>
      let! len := length_stakes recentStakes in
      if (st.(i) <? len)%nat then
        let! s := get_stake recentStakes st.(i) in
        match s with
        | Some s =>
            if (s.(time) <=? t)%Z then
              let oldAmount := s.(totalTokensStaked) in
              let i := S st.(i) in
              let timePassed := 0%Z in
              let! copy := spread_numbers history in
              let! lastConv := pop_numbers copy in
              consume_loop fuel history recentStakes t
                (mkLocals oldAmount lastConv timePassed i)
            else ret st
        | None => throw
        end
      else ret st
  end.

(** [for (let t = initTime; t <= currentTime; t++) { ... }] *)
Fixpoint sample_loop (fuel : nat) (history recentStakes : loc)
    (currentTime : Z) (alpha : float) (timeUnit : Z) (t : Z) (st : locals) : M locals :=
  match fuel with
  | O => ret st
  | S fuel =>
      if (t <=? currentTime)%Z then
        run! (if is_multiple t timeUnit
              then push_number history
                     (calculateConviction st.(timePassed) (ToNumber st.(lastConv))
                        (ToNumber st.(oldAmount)) alpha)
              else ret tt) in
        (* check if new stakes are made at this time *)
        let! len := length_stakes recentStakes in
        let! st := consume_loop len history recentStakes t st in
        let st := mkLocals st.(oldAmount) st.(lastConv) (st.(timePassed) + 1) st.(i) in
        sample_loop fuel history recentStakes currentTime alpha timeUnit (t + 1) st
      else ret st
  end.

Definition getConvictionHistory
    (stakes : loc) (currentTime : Z) (alpha : float) (timeUnit : Z) : M loc :=
  let! history := alloc (NumberArray []) in
  let initTime := (currentTime - 50 * timeUnit - 1)%Z in
  (* Fill the first spots with 0s if currentTime < 50 *)
  let! initTime := pad_loop (Z.to_nat (- initTime)) history timeUnit initTime in
  let! copy := spread_stakes stakes in
  let! oldStakes := filter_stakes (fun stake => (stake.(time) <=? initTime)%Z) copy in
  let! copy := spread_stakes stakes in
  let! recentStakes := filter_stakes (fun stake => (stake.(time) >? initTime)%Z) copy in
  let! copy := spread_stakes oldStakes in
  let! popped := pop_stakes copy in
  let '(oldAmount, lastConv, lastTime) :=
    match popped with
    | Some s => (s.(totalTokensStaked), s.(conviction), s.(time))
    | None => (number 0, number 0, 0%Z)
    end in
  let lastConv :=
    calculateConviction (initTime - lastTime) (ToNumber lastConv) (ToNumber oldAmount) alpha in
  let timePassed := 0%Z in
  let i := 0%nat in
  run! sample_loop (Z.to_nat (currentTime - initTime + 1)) history recentStakes
         currentTime alpha timeUnit initTime
         (mkLocals oldAmount (number lastConv) timePassed i) in
  ret history.

Definition getConvictionHistoryByEntity
    (stakes : loc) (entity : string) (time : Z) (alpha : float) (timeUnit : Z) : M loc :=
  let! entityStakes := stakesByEntity stakes entity in
  getConvictionHistory entityStakes time alpha timeUnit.

Definition getConvictionTrend
    (stakes : loc) (maxConviction : float) (time : Z) (alpha : float) (timeUnit : Z)
    : M float :=
  let! currentConviction := getCurrentConviction stakes time alpha in
  let! futureConviction := getCurrentConviction stakes (time + timeUnit) alpha in
  ret ((futureConviction - currentConviction) / maxConviction)%float.

(** The function only writes to the console.  The result here is what
    [console.error] is called with after its message,
    [Some (solidityConviction, conviction)], or [None] when it is not
    called. *)
Definition checkConvictionImplementation (stakes : loc) (alpha : float)
    : M (option (value * float)) :=
  let! '(conviction, _, _) := convictionFromStakes stakes alpha in
  let! len := length_stakes stakes in
  if (0 <? len)%nat then
    let! copy := spread_stakes stakes in
    let! popped := pop_stakes copy in
    match popped with
    | Some (mkStake _ _ _ _ solidityConviction) =>
        if strict_neq solidityConviction conviction then
          ret (Some (solidityConviction, conviction))
        else ret None
    | None => throw
    end
  else ret None.
End Engine.

(** ** The functions on the contents of the arrays

    What each array program computes, as a function of the list its input
    array holds.  The specifications below reduce the programs to them. *)

Section Functional.
Context `{JSMath}.

Definition last_value (history : list float) : value :=
  from_option number undefined (last history).

Definition current_conviction (stakes : list Stake) (currentTime : Z) (alpha : float)
    : float :=
  match last stakes with
  | Some s =>
      calculateConviction (currentTime - s.(time))
        (ToNumber s.(conviction)) (ToNumber s.(totalTokensStaked)) alpha
  | None => 0%float
  end.

Definition entity_stakes (stakes : list Stake) (entity : string) : list Stake :=
  (fun '(mkStake time _ tokensStaked _ conviction) =>
     {| time := time;
        entity := None;
        tokensStaked := undefined;
        totalTokensStaked := tokensStaked;
        conviction := conviction |})
  <$> List.filter
        (fun '(mkStake _ _entity _ _ _) => bool_decide (Some entity = _entity)) stakes.

Definition replay (stakes : list Stake) (alpha : float) : float * Z * value :=
  foldl
    (fun '(lastConv, lastTime, oldAmount) stake =>
       let amount := stake.(totalTokensStaked) in
       let timePassed := (stake.(time) - lastTime)%Z in
       let lastConv := calculateConviction timePassed lastConv (ToNumber oldAmount) alpha in
       let lastTime := stake.(time) in
       (lastConv, lastTime, amount))
    (0%float, 0%Z, number 0) stakes.

Definition current_conviction_by_entity
    (stakes : list Stake) (entity : string) (currentTime : Z) (alpha : float) : float :=
  let entityStakes := entity_stakes stakes entity in
  if (0 <? length entityStakes)%nat then
    let '(conviction, time, totalTokensStaked) := replay entityStakes alpha in
    calculateConviction (currentTime - time) conviction (ToNumber totalTokensStaked) alpha
  else 0%float.

(** The zero padding: the advanced [initTime] and the padded history. *)
Fixpoint pad (fuel : nat) (timeUnit initTime : Z) (history : list float)
    : Z * list float :=
  match fuel with
  | O => (initTime, history)
  | S fuel =>
      if (initTime <? 0)%Z then
        pad fuel timeUnit (initTime + 1)
          (if is_multiple initTime timeUnit then history ++ [0%float] else history)
      else (initTime, history)
  end.

(** The stake events taken up at tick [t]. *)
Fixpoint consume (fuel : nat) (history : list float) (recentStakes : list Stake)
    (t : Z) (st : locals) : locals :=
  match fuel with
  | O => st
  | S fuel =>
      match recentStakes !! st.(i) with
      | Some s =>
          if (s.(time) <=? t)%Z then
            consume fuel history recentStakes t
              (mkLocals s.(totalTokensStaked) (last_value history) 0 (S st.(i)))
          else st
      | None => st
      end
  end.

(** The sample the loop emits from its variables. *)
Definition sample (alpha : float) (st : locals) : float :=
  calculateConviction st.(timePassed) (ToNumber st.(lastConv))
    (ToNumber st.(oldAmount)) alpha.

(** One turn of the sampling loop, at tick [t]. *)
Definition tick (alpha : float) (timeUnit : Z) (recentStakes : list Stake) (t : Z)
    (hs : list float * locals) : list float * locals :=
  let '(history, st) := hs in
  let history :=
    if is_multiple t timeUnit then history ++ [sample alpha st] else history in
  let st := consume (length recentStakes) history recentStakes t st in
  (history, mkLocals st.(oldAmount) st.(lastConv) (st.(timePassed) + 1) st.(i)).

Fixpoint samples (fuel : nat) (currentTime : Z) (alpha : float) (timeUnit : Z)
    (recentStakes : list Stake) (t : Z) (hs : list float * locals)
    : list float * locals :=
  match fuel with
  | O => hs
  | S fuel =>
      if (t <=? currentTime)%Z then
        samples fuel currentTime alpha timeUnit recentStakes (t + 1)
          (tick alpha timeUnit recentStakes t hs)
      else hs
  end.

(** The variables of the sampling loop when it starts. *)
Definition checkpoint (oldStakes : list Stake) (initTime : Z) (alpha : float) : locals :=
  let '(oldAmount, lastConv, lastTime) :=
    match last oldStakes with
    | Some s => (s.(totalTokensStaked), s.(conviction), s.(time))
    | None => (number 0, number 0, 0%Z)
    end in
  let lastConv :=
    calculateConviction (initTime - lastTime) (ToNumber lastConv) (ToNumber oldAmount) alpha in
  mkLocals oldAmount (number lastConv) 0 0.

Definition conviction_history
    (stakes : list Stake) (currentTime : Z) (alpha : float) (timeUnit : Z) : list float :=
  let initTime := (currentTime - 50 * timeUnit - 1)%Z in
  let '(initTime, history) := pad (Z.to_nat (- initTime)) timeUnit initTime [] in
  let oldStakes := List.filter (fun stake => (stake.(time) <=? initTime)%Z) stakes in
  let recentStakes := List.filter (fun stake => (stake.(time) >? initTime)%Z) stakes in
  fst (samples (Z.to_nat (currentTime - initTime + 1)) currentTime alpha timeUnit
         recentStakes initTime (history, checkpoint oldStakes initTime alpha)).

(** [replay] from any accumulator, and on the pairs [(time, amount)] that are
    all it reads of an event. *)
Definition replay_from (alpha : float) (acc : float * Z * value) (stakes : list Stake)
    : float * Z * value :=
  foldl
    (fun '(lastConv, lastTime, oldAmount) stake =>
       let amount := stake.(totalTokensStaked) in
       let timePassed := (stake.(time) - lastTime)%Z in
       let lastConv := calculateConviction timePassed lastConv (ToNumber oldAmount) alpha in
       let lastTime := stake.(time) in
       (lastConv, lastTime, amount))
    acc stakes.

Definition replay_events (alpha : float) (events : list (Z * value)) : float * Z * value :=
  foldl
    (fun '(lastConv, lastTime, oldAmount) '(time, amount) =>
       (calculateConviction (time - lastTime) lastConv (ToNumber oldAmount) alpha,
        time, amount))
    (0%float, 0%Z, number 0) events.

(** What [checkConvictionImplementation] reports for a list. *)
Definition check_report (stakes : list Stake) (alpha : float) : option (value * float) :=
  match last stakes with
  | Some s =>
      if strict_neq s.(conviction) (replay stakes alpha).1.1
      then Some (s.(conviction), (replay stakes alpha).1.1)
      else None
  | None => None
  end.

(** Each event records the conviction accrued up to it, by the rule of
    [convictionFromStakes]. *)
Fixpoint recorded_from (alpha : float) (acc : float * Z * value) (stakes : list Stake)
    : Prop :=
  match stakes with
  | [] => True
  | s :: stakes =>
      let '(lastConv, lastTime, oldAmount) := acc in
      let conv :=
        calculateConviction (s.(time) - lastTime) lastConv (ToNumber oldAmount) alpha in
      s.(conviction) = number conv
      /\ recorded_from alpha (conv, s.(time), s.(totalTokensStaked)) stakes
  end.

Definition recorded (alpha : float) (stakes : list Stake) : Prop :=
  recorded_from alpha (0%float, 0%Z, number 0) stakes.
End Functional.

(** ** Reasoning about array programs

    [wp m h Q]: run from the heap [h], the computation [m] returns (it does
    not throw) a result and a final heap that satisfy [Q]. *)

Definition wp {A} (m : M A) (h : heap) (Q : A -> heap -> Prop) : Prop :=
  match m h with
  | Some (a, h') => Q a h'
  | None => False
  end.

(** [agree_except l h h']: every array of [h] other than [l] is unchanged in
    [h']. *)
Definition agree_except (l : loc) (h h' : heap) : Prop :=
  forall l' a, l' <> l -> h !! l' = Some a -> h' !! l' = Some a.

(** ** Inputs and predicates of the statements *)

(** A heap that holds one stake array, at location 1. *)
Definition heap_of (ss : list Stake) : heap := <[1%positive := StakeArray ss]> ∅.

(** The event of the round-trip example: [{ time: 0, totalTokensStaked: 100,
    conviction: 0 }]. *)
Definition genesis_stake : Stake :=
  mkStake 0 (Some "alice"%string) (number 100) (number 100) (number 0).

(** A later event: the stake becomes 100 at tick 3. *)
Definition late_stake : Stake :=
  mkStake 3 (Some "alice"%string) (number 100) (number 100) (number 0).

Definition sampling_heap : heap :=
  <[2%positive := NumberArray [5%float]]> (<[1%positive := StakeArray [late_stake]]> ∅).

(** The final heap still holds [ss] at [stakes], and every other array that
    existed before the call. *)
Definition unchanged (h : heap) (stakes : loc) (ss : list Stake) {A} (_ : A) (h' : heap)
    : Prop :=
  h' !! stakes = Some (StakeArray ss) /\ h ⊆ h'.

(** The number of multiples of [timeUnit] among the [n] ticks from [t] on. *)
Fixpoint count_multiples (n : nat) (t timeUnit : Z) : nat :=
  match n with
  | O => 0
  | S n => (if is_multiple t timeUnit then 1 else 0) + count_multiples n (t + 1) timeUnit
  end.

(** The log is ordered by non-decreasing [time] (the invariant of the data
    model). *)
Definition chronological (ss : list Stake) : Prop :=
  StronglySorted (fun a b => (a.(time) <= b.(time))%Z) ss.

(** What [stakesByEntity] makes of an event [s0] of the entity [who]. *)
Definition relabelled (who : string) (s0 s : Stake) : Prop :=
  s0.(entity) = Some who
  /\ s = mkStake s0.(time) None undefined s0.(tokensStaked) s0.(conviction).

(** The events of an entity, as [stakesByEntity] hands them on: the time and
    the entity's own stake. *)
Definition own_events (ss : list Stake) (who : string) : list (Z * value) :=
  (fun s => (s.(time), s.(tokensStaked)))
  <$> List.filter (fun s => bool_decide (Some who = s.(entity))) ss.

(** A heap with two logs that agree on the events of alice. *)
Definition two_logs : heap :=
  <[2%positive :=
      StakeArray [mkStake 0 (Some "alice"%string) (number 100) (number 500) (number 7);
                  mkStake 1 (Some "bob"%string) (number 400) (number 900) (number 8)]]>
    (heap_of [genesis_stake]).

(** Two logs that differ in an event before the last checkpoint ahead of the
    window of block 100 and in an event after block 100. *)
Definition window_logs : heap :=
  <[2%positive :=
      StakeArray [mkStake 10 (Some "alice"%string) (number 200) (number 200) (number 651);
                  mkStake 70 (Some "bob"%string) (number 50) (number 250) (number 1990)]]>
    (<[1%positive :=
         StakeArray [genesis_stake;
                     mkStake 10 (Some "alice"%string) (number 200) (number 200) (number 651);
                     mkStake 70 (Some "bob"%string) (number 50) (number 250) (number 1990);
                     mkStake 200 (Some "bob"%string) (number 0) (number 200) (number 2400)]]>
       ∅).

(** * Proofs *)

(** ** Facts about binary64 arithmetic *)

Module IEEE.
Open Scope float_scope.

Lemma eq_of_spec (x y : float) : Prim2SF x = Prim2SF y -> x = y.
Proof. apply Prim2SF_inj. Qed.

Lemma spec_nan : Prim2SF nan = S754_nan.
Proof. reflexivity. Qed.


Lemma mul_nan_r (x : float) : x * nan = nan.
Proof. apply eq_of_spec. rewrite FloatAxioms.mul_spec. simpl. now destruct (Prim2SF x). Qed.


Lemma add_nan_r (x : float) : x + nan = nan.
Proof. apply eq_of_spec. rewrite FloatAxioms.add_spec. simpl. now destruct (Prim2SF x). Qed.

Lemma div_nan_l (x : float) : nan / x = nan.
Proof. apply eq_of_spec. rewrite FloatAxioms.div_spec. reflexivity. Qed.

Lemma div_nan_r (x : float) : x / nan = nan.
Proof. apply eq_of_spec. rewrite FloatAxioms.div_spec. simpl. now destruct (Prim2SF x). Qed.

(** The zeros are the only doubles equal to zero. *)
Lemma eqb_zero (x : float) : (x =? 0) = true -> x = 0 \/ x = -0.
Proof.
  rewrite FloatAxioms.eqb_spec. change (Prim2SF 0) with (S754_zero false).
  destruct (Prim2SF x) as [s|s| |s m e] eqn:Hx; cbn; try discriminate.
  - intros _. destruct s; [right|left]; apply eq_of_spec; now rewrite Hx.
  - destruct s; discriminate.
  - destruct s; discriminate.
Qed.

(** Comparison is antisymmetric, and unordered exactly on NaN. *)
Lemma SFcompare_antisym (x y : spec_float) :
  SFcompare y x = option_map CompOpp (SFcompare x y).
Proof.
  destruct x as [sx|sx| |sx mx ex], y as [sy|sy| |sy my ey]; simpl;
    try reflexivity; try (destruct sx; reflexivity);
    try (destruct sy; reflexivity); try (destruct sx, sy; reflexivity).
  destruct sx, sy; try reflexivity;
    rewrite (Z.compare_antisym ex ey); destruct (ex ?= ey)%Z; simpl;
    try reflexivity;
    pose proof (Pos.compare_cont_antisym mx my Eq) as E; simpl in E;
    rewrite <- E; now rewrite ?CompOpp_involutive.
Qed.

(** [x >= y] excludes [x < y]. *)
Lemma leb_not_ltb (x y : float) : (y <=? x) = true -> (x <? y) = false.
Proof.
  rewrite FloatAxioms.leb_spec, FloatAxioms.ltb_spec. unfold SFleb, SFltb.
  rewrite (SFcompare_antisym (Prim2SF x) (Prim2SF y)).
  now destruct (SFcompare (Prim2SF x) (Prim2SF y)) as [[]|].
Qed.
Lemma spec_one : Prim2SF 1 = S754_finite false 4503599627370496 (-52).
Proof. reflexivity. Qed.

Lemma digits2_pos_shift52 (m : positive) :
  Z.pos (digits2_pos (4503599627370496 * m)) = (Z.pos (digits2_pos m) + 52)%Z.
Proof. cbv [Pos.mul]. cbn [digits2_pos]. rewrite !Pos2Z.inj_succ. lia. Qed.

Lemma SFmul_one_r (x : spec_float) :
  valid_binary x = true -> SF64mul x (S754_finite false 4503599627370496 (-52)) = x.
Proof.
  destruct x as [s|s| |s m e]; intros Hv; cbn [SF64mul SFmul]; rewrite ?xorb_false_r; try reflexivity.
  cbn in Hv. unfold bounded, canonical_mantissa in Hv.
  apply andb_prop in Hv as [Hc He]. apply Z.eqb_eq in Hc. apply Z.leb_le in He.
  rewrite Pos.mul_comm.
  unfold binary_round_aux, shr_fexp, Zdigits2.
  rewrite digits2_pos_shift52.
  replace (Z.pos (digits2_pos m) + 52 + (e + -52))%Z with (Z.pos (digits2_pos m) + e)%Z by lia.
  rewrite Hc.
  replace (e - (e + -52))%Z with 52%Z by lia.
  cbv [Pos.mul]. cbn [shr shr_record_of_loc SpecFloat.iter_pos shr_1 orb].
  cbn [shr_m loc_of_shr_record round_nearest_even Zdigits2].
  replace (e + -52 + 52)%Z with e by lia.
  rewrite Hc, Z.sub_diag. cbn [shr shr_m].
  apply Z.leb_le in He. now rewrite He.
Qed.

Lemma mul_one_r (x : float) : x * 1 = x.
Proof.
  apply eq_of_spec. rewrite FloatAxioms.mul_spec, spec_one. apply SFmul_one_r, Prim2SF_valid.
Qed.


(** Sizes of mantissas. *)
Lemma digits2_pos_bounds (m : positive) :
  (2 ^ (Z.pos (digits2_pos m) - 1) <= Z.pos m < 2 ^ Z.pos (digits2_pos m))%Z.
Proof.
  induction m as [m IH|m IH|]; cbn [digits2_pos].
  - rewrite Pos2Z.inj_succ.
    replace (Z.succ (Z.pos (digits2_pos m)) - 1)%Z with (Z.succ (Z.pos (digits2_pos m) - 1))%Z by lia.
    rewrite !Z.pow_succ_r by lia. lia.
  - rewrite Pos2Z.inj_succ.
    replace (Z.succ (Z.pos (digits2_pos m)) - 1)%Z with (Z.succ (Z.pos (digits2_pos m) - 1))%Z by lia.
    rewrite !Z.pow_succ_r by lia. lia.
  - simpl. lia.
Qed.

Lemma shr_1_m (mrs : shr_record) :
  (0 <= shr_m mrs)%Z -> shr_m (shr_1 mrs) = (shr_m mrs / 2)%Z.
Proof.
  destruct mrs as [m r s]. cbn [shr_m]. intros Hm.
  destruct m as [|[p|p|]|p]; cbn [shr_1 shr_m].
  - reflexivity.
  - apply Z.div_unique with 1%Z; lia.
  - apply Z.div_unique with 0%Z; lia.
  - reflexivity.
  - lia.
Qed.

Lemma iter_shr_1_m (n : positive) : forall mrs,
  (0 <= shr_m mrs)%Z ->
  shr_m (SpecFloat.iter_pos shr_1 n mrs) = (shr_m mrs / 2 ^ Z.pos n)%Z.
Proof.
  induction n as [n IH|n IH|]; intros mrs Hm; cbn [SpecFloat.iter_pos].
  - assert (0 < 2 ^ Z.pos n)%Z as HP by (apply Z.pow_pos_nonneg; lia).
    assert (0 <= shr_m (shr_1 mrs))%Z as H1
      by (rewrite shr_1_m by done; apply Z.div_pos; lia).
    assert (0 <= shr_m (SpecFloat.iter_pos shr_1 n (shr_1 mrs)))%Z as H2
      by (rewrite IH by done; apply Z.div_pos; lia).
    rewrite IH, IH, shr_1_m by done.
    replace (Z.pos n~1) with (1 + Z.pos n + Z.pos n)%Z by lia.
    rewrite !Z.pow_add_r, Z.pow_1_r by lia.
    rewrite !Z.div_div by lia. f_equal. lia.
  - assert (0 < 2 ^ Z.pos n)%Z as HP by (apply Z.pow_pos_nonneg; lia).
    assert (0 <= shr_m (SpecFloat.iter_pos shr_1 n mrs))%Z as H1
      by (rewrite IH by done; apply Z.div_pos; lia).
    rewrite IH, IH by done.
    replace (Z.pos n~0) with (Z.pos n + Z.pos n)%Z by lia.
    rewrite Z.pow_add_r by lia. rewrite Z.div_div by lia. reflexivity.
  - now rewrite shr_1_m, Z.pow_1_r.
Qed.

Lemma shr_record_of_loc_m (m : Z) (l : location) : shr_m (shr_record_of_loc m l) = m.
Proof. now destruct l as [|[]]. Qed.

Lemma fexp_ge_emin (k : Z) : (emin <= fexp prec emax k)%Z.
Proof. unfold fexp. lia. Qed.

(** Rounding a positive mantissa whose exponent is in range never gives
    zero. *)
Lemma shr_fexp_pos (m e : Z) (l : location) :
  (0 < m)%Z -> (emin <= e)%Z ->
  (0 < shr_m (shr_fexp prec emax m e l).1)%Z
  /\ (emin <= (shr_fexp prec emax m e l).2)%Z.
Proof.
  intros Hm He. unfold shr_fexp, shr.
  destruct m as [|p|p]; try lia. cbn [Zdigits2].
  pose proof (digits2_pos_bounds p) as [Hlo _].
  destruct (fexp prec emax (Z.pos (digits2_pos p) + e) - e)%Z as [|q|q] eqn:Hn;
    cbn [fst snd]; rewrite ?shr_record_of_loc_m; try (split; lia).
  rewrite iter_shr_1_m by (rewrite shr_record_of_loc_m; lia).
  rewrite shr_record_of_loc_m. split; [|lia].
  assert (Z.pos q <= Z.pos (digits2_pos p) - 1)%Z as Hq.
  { unfold fexp, SpecFloat.emin, prec, emax in *. lia. }
  apply Z.div_str_pos. split; [apply Z.pow_pos_nonneg; lia|].
  etrans; [|exact Hlo]. apply Z.pow_le_mono_r; lia.
Qed.

Lemma round_nearest_even_pos (m : Z) (l : location) :
  (0 < m)%Z -> (0 < round_nearest_even m l)%Z.
Proof. intros Hm. destruct l as [|[]]; simpl; try lia. destruct (Z.even m); lia. Qed.

(** The shape of a float that is neither zero nor NaN and has sign [s]. *)
Definition nonzero_of_sign (s : bool) (x : spec_float) : Prop :=
  (exists m e, x = S754_finite s m e) \/ x = S754_infinity s.

Lemma binary_round_aux_pos (s : bool) (m e : Z) (l : location) :
  (0 < m)%Z -> (emin <= e)%Z ->
  nonzero_of_sign s (binary_round_aux prec emax s m e l).
Proof.
  intros Hm He. unfold binary_round_aux.
  destruct (shr_fexp_pos m e l Hm He) as [Hm1 He1].
  destruct (shr_fexp prec emax m e l) as [mrs1 e1]. cbn [fst snd] in *.
  pose proof (round_nearest_even_pos _ (loc_of_shr_record mrs1) Hm1) as Hr.
  destruct (shr_fexp_pos _ e1 loc_Exact Hr He1) as [Hm2 _].
  destruct (shr_fexp prec emax _ e1 loc_Exact) as [mrs2 e2]. cbn [fst snd] in *.
  destruct (shr_m mrs2) as [|m2|m2]; try lia.
  destruct (e2 <=? emax - prec)%Z; [left; eauto | now right].
Qed.

Lemma binary_round_pos (s : bool) (m : positive) (e : Z) :
  (emin <= e)%Z -> nonzero_of_sign s (binary_round prec emax s m e).
Proof.
  intros He. unfold binary_round, shl_align.
  pose proof (fexp_ge_emin (Z.pos (digits2_pos m) + e)).
  destruct (fexp prec emax (Z.pos (digits2_pos m) + e) - e)%Z;
    apply binary_round_aux_pos; lia.
Qed.

Lemma iter_xO (p d : positive) : Z.pos (Pos.iter xO p d) = (Z.pos p * 2 ^ Z.pos d)%Z.
Proof.
  induction d as [|d IH] using Pos.peano_ind.
  - simpl. lia.
  - rewrite Pos.iter_succ, Pos2Z.inj_succ, Z.pow_succ_r by lia. lia.
Qed.

(** [1 - a] for a double [a] below 1: positive, so neither zero nor NaN. *)
Lemma SFsub_one_pos (m : positive) (e : Z) :
  bounded prec emax m e = true ->
  (e < -52 \/ (e = -52 /\ Z.pos m < 4503599627370496))%Z ->
  nonzero_of_sign false
    (SF64sub (S754_finite false 4503599627370496 (-52)) (S754_finite false m e)).
Proof.
  intros Hb Hlt. unfold bounded, canonical_mantissa in Hb.
  apply andb_prop in Hb as [Hc _]. apply Z.eqb_eq in Hc.
  pose proof (fexp_ge_emin (Z.pos (digits2_pos m) + e)) as Hemin. rewrite Hc in Hemin.
  pose proof (digits2_pos_bounds m) as [_ Hhi].
  assert (Z.pos (digits2_pos m) <= 53)%Z as Hd
    by (unfold fexp, SpecFloat.emin, prec, emax in Hc; lia).
  assert (Z.pos m < 2 * 4503599627370496)%Z as Hm.
  { eapply Z.lt_le_trans; [exact Hhi|].
    change (2 * 4503599627370496)%Z with (2 ^ 53)%Z. apply Z.pow_le_mono_r; lia. }
  unfold SF64sub, SFsub. cbn [cond_Zopp].
  set (diff := (Z.pos (shl_align 4503599627370496 (-52) (Z.min (-52) e)).1
                - Z.pos (shl_align m e (Z.min (-52) e)).1)%Z).
  assert (0 < diff /\ emin <= Z.min (-52) e)%Z as [Hdiff Hez].
  { subst diff. unfold shl_align. destruct Hlt as [He | [-> Hlt]].
    - rewrite Z.min_r by lia. rewrite Z.sub_diag.
      destruct (e - -52)%Z as [|d|d] eqn:Hed; try lia. cbn [fst].
      rewrite iter_xO. split; [|lia].
      assert (2 ^ 1 <= 2 ^ Z.pos d)%Z by (apply Z.pow_le_mono_r; lia).
      rewrite Z.pow_1_r in *. nia.
    - rewrite Z.min_id, Z.sub_diag. cbn [fst]. lia. }
  destruct diff as [|p|p]; try lia.
  cbn [binary_normalize]. now apply binary_round_pos.
Qed.

Lemma SFcompare_refl (x : spec_float) : x <> S754_nan -> SFcompare x x = Some Eq.
Proof.
  destruct x as [s|s| |s m e]; intros Hx; cbn [SFcompare]; try done.
  - now destruct s.
  - rewrite Z.compare_refl, Pos.compare_cont_refl. now destruct s.
Qed.

Lemma is_nan_spec (x : float) : is_nan x = false -> Prim2SF x <> S754_nan.
Proof.
  unfold is_nan. rewrite FloatAxioms.eqb_spec. intros Hx Hn. rewrite Hn in Hx. discriminate.
Qed.

(** A finite double is a zero or has a mantissa. *)
Lemma is_finite_spec (x : float) :
  is_finite x = true ->
  (exists s, Prim2SF x = S754_zero s) \/ (exists s m e, Prim2SF x = S754_finite s m e).
Proof.
  unfold is_finite, is_nan, is_infinity.
  rewrite !FloatAxioms.eqb_spec, FloatAxioms.abs_spec.
  change (Prim2SF infinity) with (S754_infinity false).
  destruct (Prim2SF x) as [s|s| |s m e]; cbn; try discriminate; eauto.
  destruct s; discriminate.
Qed.

(** A double strictly between 0 and 1 is positive, with a mantissa, and
    compares below 1. *)
Lemma unit_interval_spec (a : float) :
  (0 <? a) = true -> (a <? 1) = true ->
  exists m e,
    Prim2SF a = S754_finite false m e
    /\ (e < -52 \/ (e = -52 /\ Z.pos m < 4503599627370496))%Z.
Proof.
  rewrite !FloatAxioms.ltb_spec. unfold SFltb.
  change (Prim2SF 0) with (S754_zero false).
  change (Prim2SF 1) with (S754_finite false 4503599627370496 (-52)).
  destruct (Prim2SF a) as [s|s| |s m e]; cbn [SFcompare]; try discriminate.
  - destruct s; discriminate.
  - destruct s; [discriminate|]. intros _. exists m, e. split; [done|].
    destruct (Z.compare_spec e (-52)) as [He|He|He]; [|lia|discriminate].
    revert H. generalize 4503599627370496%positive as M. intros M.
    pose proof (Pos.compare_spec m M) as Hs. unfold Pos.compare in Hs.
    destruct Hs as [Hm|Hm|Hm]; try discriminate.
    intros _. right. split; [done|]. lia.
Qed.

Lemma sub_one_nonzero (a : float) :
  (0 <? a) = true -> (a <? 1) = true -> nonzero_of_sign false (Prim2SF (1 - a)).
Proof.
  intros H0 H1. destruct (unit_interval_spec a H0 H1) as (m & e & Ha & Hlt).
  rewrite FloatAxioms.sub_spec, Ha.
  change (Prim2SF 1) with (S754_finite false 4503599627370496 (-52)).
  apply SFsub_one_pos; [|done].
  pose proof (Prim2SF_valid a) as Hv. now rewrite Ha in Hv.
Qed.

Lemma mul_zero_r_finite (x : float) :
  is_finite x = true -> exists s, Prim2SF (x * 0) = S754_zero s.
Proof.
  intros Hx. rewrite FloatAxioms.mul_spec. change (Prim2SF 0) with (S754_zero false).
  destruct (is_finite_spec x Hx) as [[s ->] | (s & m & e & ->)]; cbn; eauto.
Qed.

Lemma div_zero_l (z d : float) (s s' : bool) :
  Prim2SF z = S754_zero s -> nonzero_of_sign s' (Prim2SF d) ->
  exists s'', Prim2SF (z / d) = S754_zero s''.
Proof.
  intros Hz Hd. rewrite FloatAxioms.div_spec, Hz.
  destruct Hd as [(m & e & ->) | ->]; cbn; eauto.
Qed.

(** Adding a zero changes no number, up to the sign of a zero. *)
Lemma add_zero_r_eqb (y z : float) (s : bool) :
  is_nan y = false -> Prim2SF z = S754_zero s -> (y + z =? y) = true.
Proof.
  intros Hy Hz. apply is_nan_spec in Hy.
  rewrite FloatAxioms.eqb_spec, FloatAxioms.add_spec, Hz. unfold SFeqb.
  destruct (Prim2SF y) as [sy|sy| |sy my ey] eqn:Hy'; try done.
  - cbn. now destruct sy, s.
  - cbn [SF64add SFadd]. now rewrite SFcompare_refl.
  - cbn [SF64add SFadd]. now rewrite SFcompare_refl.
Qed.
Lemma SFcompare_None (x y : spec_float) :
  SFcompare x y = None -> x = S754_nan \/ y = S754_nan.
Proof.
  destruct x as [sx|sx| |sx mx ex], y as [sy|sy| |sy my ey]; cbn [SFcompare];
    try discriminate; auto.
Qed.

Lemma is_nan_of_spec (x : float) : Prim2SF x = S754_nan -> is_nan x = true.
Proof. intros Hx. unfold is_nan. now rewrite FloatAxioms.eqb_spec, Hx. Qed.

(** When [x < y] fails, either [y <= x] or one of the two is NaN. *)
Lemma ltb_false_cases (x y : float) :
  (x <? y) = false -> (y <=? x) = true \/ is_nan x = true \/ is_nan y = true.
Proof.
  rewrite FloatAxioms.ltb_spec, FloatAxioms.leb_spec. unfold SFltb, SFleb.
  rewrite (SFcompare_antisym (Prim2SF x) (Prim2SF y)).
  destruct (SFcompare (Prim2SF x) (Prim2SF y)) as [[]|] eqn:Hc; cbn; auto; try discriminate.
  intros _. right.
  destruct (SFcompare_None _ _ Hc) as [Hn|Hn]; [left|right]; now apply is_nan_of_spec.
Qed.

(** A double that is NaN to [is_nan], and one that is not. *)
Lemma is_nan_true_spec (f : float) : is_nan f = true -> Prim2SF f = S754_nan.
Proof.
  unfold is_nan. rewrite FloatAxioms.eqb_spec. unfold SFeqb.
  destruct (Prim2SF f) as [s|s| |s m e] eqn:Hf; [| | done |];
    now rewrite SFcompare_refl.
Qed.

Lemma eqb_refl_not_nan (c : float) : is_nan c = false -> (c =? c) = true.
Proof. unfold is_nan. now destruct (c =? c). Qed.

(** Zeros. *)
Lemma eqb_zero_of_spec (x : float) (s : bool) : Prim2SF x = S754_zero s -> (x =? 0) = true.
Proof. intros Hx. rewrite FloatAxioms.eqb_spec, Hx. now destruct s. Qed.

Lemma spec_of_eqb_zero (x : float) : (x =? 0) = true -> exists s, Prim2SF x = S754_zero s.
Proof. intros Hx. destruct (eqb_zero x Hx) as [-> | ->]; eexists; reflexivity. Qed.

(** A product with zero is a zero or NaN. *)
Lemma mul_zero_r_spec (x : float) :
  (exists s, Prim2SF (x * 0) = S754_zero s) \/ Prim2SF (x * 0) = S754_nan.
Proof.
  rewrite FloatAxioms.mul_spec. change (Prim2SF 0) with (S754_zero false).
  destruct (Prim2SF x) as [s|s| |s m e]; cbn; eauto.
Qed.

(** Zero or NaN over zero is NaN. *)
Lemma div_zero_zero (n d : float) (s : bool) :
  (exists s', Prim2SF n = S754_zero s') \/ Prim2SF n = S754_nan ->
  Prim2SF d = S754_zero s -> n / d = nan.
Proof.
  intros Hn Hd. apply eq_of_spec. rewrite FloatAxioms.div_spec, Hd.
  destruct Hn as [[s' ->] | ->]; reflexivity.
Qed.

(** A quotient by zero is NaN or an infinity. *)
Lemma div_zero_r_spec (n d : float) (s : bool) :
  Prim2SF d = S754_zero s ->
  Prim2SF (n / d) = S754_nan \/ exists s', Prim2SF (n / d) = S754_infinity s'.
Proof.
  intros Hd. rewrite FloatAxioms.div_spec, Hd.
  destruct (Prim2SF n) as [s'|s'| |s' m e]; cbn; eauto.
Qed.

Lemma not_finite_of_spec (x : float) :
  Prim2SF x = S754_nan \/ (exists s, Prim2SF x = S754_infinity s) -> is_finite x = false.
Proof.
  unfold is_finite, is_nan, is_infinity.
  rewrite !FloatAxioms.eqb_spec, FloatAxioms.abs_spec.
  change (Prim2SF infinity) with (S754_infinity false).
  intros [-> | [s ->]]; [reflexivity | now destruct s].
Qed.

(** Zero over a number that is neither zero nor NaN is a zero. *)
Lemma zero_div_spec (d : float) :
  is_nan d = false -> (d =? 0) = false -> exists s, Prim2SF (0 / d) = S754_zero s.
Proof.
  intros Hn Hz. apply is_nan_spec in Hn.
  rewrite FloatAxioms.eqb_spec in Hz. rewrite FloatAxioms.div_spec.
  change (Prim2SF 0) with (S754_zero false) in *.
  destruct (Prim2SF d) as [s|s| |s m e]; cbn in *; try done; eauto.
Qed.

(** A finite non-zero double divided by itself is exactly 1. *)
Lemma div_eucl_mul_l (m : positive) (k : Z) :
  Z.div_eucl (Z.pos m * k) (Z.pos m) = (k, 0%Z).
Proof.
  assert ((Z.pos m * k) / Z.pos m = k)%Z as Hq by (rewrite Z.mul_comm; apply Z.div_mul; lia).
  assert ((Z.pos m * k) mod Z.pos m = 0)%Z as Hr by (rewrite Z.mul_comm; apply Z.mod_mul; lia).
  unfold Z.div, Z.modulo in *.
  destruct (Z.div_eucl (Z.pos m * k) (Z.pos m)) as [q r]. now subst.
Qed.

Lemma new_location_exact (n : Z) : new_location n 0 = loc_Exact.
Proof. unfold new_location, new_location_even, new_location_odd. now destruct (Z.even n). Qed.

Lemma SFdiv_diag (s : bool) (m : positive) (e : Z) :
  SF64div (S754_finite s m e) (S754_finite s m e) = S754_finite false 4503599627370496 (-52).
Proof.
  unfold SF64div, SFdiv, SFdiv_core_binary.
  rewrite !Z.sub_diag. rewrite xorb_nilpotent.
  change (Z.min (fexp prec emax 0) 0) with (-53)%Z.
  change (0 - -53)%Z with 53%Z. cbv iota beta.
  rewrite Z.shiftl_mul_pow2 by lia.
  rewrite div_eucl_mul_l, new_location_exact.
  vm_compute. reflexivity.
Qed.

Lemma div_diag (x : float) : is_finite x = true -> (x =? 0) = false -> x / x = 1.
Proof.
  intros Hf Hz. apply eq_of_spec. rewrite FloatAxioms.div_spec, spec_one.
  rewrite FloatAxioms.eqb_spec in Hz. change (Prim2SF 0) with (S754_zero false) in Hz.
  destruct (is_finite_spec x Hf) as [[s Hx] | (s & m & e & Hx)]; rewrite Hx in *.
  - now destruct s.
  - apply SFdiv_diag.
Qed.

(** [-1 * y + y] is [+0] for every finite [y]. *)
Lemma spec_neg_one : Prim2SF (- 1) = S754_finite true 4503599627370496 (-52).
Proof. reflexivity. Qed.

Lemma SFopp_one_mul (x : spec_float) :
  valid_binary x = true ->
  SF64mul (S754_finite true 4503599627370496 (-52)) x = SFopp x.
Proof.
  destruct x as [s|s| |s m e]; intros Hv; cbn [SF64mul SFmul SFopp xorb]; try reflexivity.
  cbn in Hv. unfold bounded, canonical_mantissa in Hv.
  apply andb_prop in Hv as [Hc He]. apply Z.eqb_eq in Hc. apply Z.leb_le in He.
  unfold binary_round_aux, shr_fexp, Zdigits2.
  rewrite digits2_pos_shift52.
  replace (Z.pos (digits2_pos m) + 52 + (-52 + e))%Z with (Z.pos (digits2_pos m) + e)%Z by lia.
  rewrite Hc.
  replace (e - (-52 + e))%Z with 52%Z by lia.
  cbv [Pos.mul]. cbn [shr shr_record_of_loc SpecFloat.iter_pos shr_1 orb].
  cbn [shr_m loc_of_shr_record round_nearest_even Zdigits2].
  replace (-52 + e + 52)%Z with e by lia.
  rewrite Hc, Z.sub_diag. cbn [shr shr_m].
  apply Z.leb_le in He. now rewrite He.
Qed.

Lemma SFadd_opp_l (x : spec_float) :
  (exists s, x = S754_zero s) \/ (exists s m e, x = S754_finite s m e) ->
  SF64add (SFopp x) x = S754_zero false.
Proof.
  intros [[s ->] | (s & m & e & ->)]; cbn [SFopp SF64add SFadd].
  - now destruct s.
  - rewrite Z.min_id. unfold shl_align. rewrite Z.sub_diag. cbn [fst].
    replace (cond_Zopp (negb s) (Z.pos m) + cond_Zopp s (Z.pos m))%Z with 0%Z
      by (destruct s; cbn; lia).
    reflexivity.
Qed.

Lemma opp_one_mul_add (y : float) : is_finite y = true -> - 1 * y + y = 0.
Proof.
  intros Hy. apply eq_of_spec.
  rewrite FloatAxioms.add_spec, FloatAxioms.mul_spec, spec_neg_one.
  rewrite SFopp_one_mul by apply Prim2SF_valid.
  now rewrite SFadd_opp_l by apply (is_finite_spec y Hy).
Qed.

End IEEE.

Lemma pow_ref_zero (b : float) : pow_ref b 0 = 1%float.
Proof. reflexivity. Qed.

Lemma log_ref_neg (x : float) : (x <? 0)%float = true -> log_ref x = nan.
Proof. unfold log_ref. intros ->. now destruct (is_nan x). Qed.

Lemma log_ref_zero (x : float) : (x =? 0)%float = true -> log_ref x = neg_infinity.
Proof. intros E. destruct (IEEE.eqb_zero x E) as [-> | ->]; reflexivity. Qed.

#[export] Instance ref_math : JSMath := {|
  Math_pow := pow_ref;
  Math_log := log_ref;
  pow_zero := pow_ref_zero;
  log_nan := eq_refl;
  log_neg := log_ref_neg;
  log_zero := log_ref_zero;
  log_one := eq_refl;
  log_infinity := eq_refl;
|}.

(** ** Reasoning about array programs *)

Section WP.
Context {A B : Type}.
Implicit Types (h : heap) (l : loc).

Lemma wp_ret (a : A) h (Q : A -> heap -> Prop) : Q a h -> wp (ret a) h Q.
Proof. exact id. Qed.

Lemma wp_bind (m : M A) (k : A -> M B) h (Q : B -> heap -> Prop) :
  wp m h (fun a h' => wp (k a) h' Q) -> wp (bind m k) h Q.
Proof. unfold wp, bind. now destruct (m h) as [[a h']|]. Qed.

Lemma wp_mono (m : M A) h (Q Q' : A -> heap -> Prop) :
  wp m h Q -> (forall a h', Q a h' -> Q' a h') -> wp m h Q'.
Proof. unfold wp. destruct (m h) as [[a h']|]; [auto | tauto]. Qed.

Lemma wp_run (m : M A) h (Q : A -> heap -> Prop) :
  wp m h Q -> exists a h', m h = Some (a, h') /\ Q a h'.
Proof. unfold wp. destruct (m h) as [[a h']|]; [eauto | tauto]. Qed.
End WP.

Section Primitives.
Implicit Types (h : heap) (l : loc).

Lemma wp_alloc a h (Q : loc -> heap -> Prop) :
  (forall l, h !! l = None -> Q l (<[l := a]> h)) -> wp (alloc a) h Q.
Proof.
  intros HQ. unfold wp, alloc. apply HQ.
  apply not_elem_of_dom, is_fresh.
Qed.

Lemma wp_read_stakes l xs h (Q : list Stake -> heap -> Prop) :
  h !! l = Some (StakeArray xs) -> Q xs h -> wp (read_stakes l) h Q.
Proof. intros Hl HQ. unfold wp, read_stakes. now rewrite Hl. Qed.

Lemma wp_read_numbers l xs h (Q : list float -> heap -> Prop) :
  h !! l = Some (NumberArray xs) -> Q xs h -> wp (read_numbers l) h Q.
Proof. intros Hl HQ. unfold wp, read_numbers. now rewrite Hl. Qed.

Lemma wp_write l a h (Q : unit -> heap -> Prop) :
  Q tt (<[l := a]> h) -> wp (write l a) h Q.
Proof. exact id. Qed.

Lemma wp_spread_stakes l xs h (Q : loc -> heap -> Prop) :
  h !! l = Some (StakeArray xs) ->
  (forall l', h !! l' = None -> Q l' (<[l' := StakeArray xs]> h)) ->
  wp (spread_stakes l) h Q.
Proof.
  intros Hl HQ. apply wp_bind, (wp_read_stakes l xs); [done|]. now apply wp_alloc.
Qed.

Lemma wp_spread_numbers l xs h (Q : loc -> heap -> Prop) :
  h !! l = Some (NumberArray xs) ->
  (forall l', h !! l' = None -> Q l' (<[l' := NumberArray xs]> h)) ->
  wp (spread_numbers l) h Q.
Proof.
  intros Hl HQ. apply wp_bind, (wp_read_numbers l xs); [done|]. now apply wp_alloc.
Qed.

Lemma wp_pop_stakes l xs h (Q : option Stake -> heap -> Prop) :
  h !! l = Some (StakeArray xs) ->
  Q (last xs) (<[l := StakeArray (removelast xs)]> h) ->
  wp (pop_stakes l) h Q.
Proof.
  intros Hl HQ. apply wp_bind, (wp_read_stakes l xs); [done|].
  apply wp_bind, wp_write. now apply wp_ret.
Qed.

Lemma wp_pop_numbers l xs h (Q : value -> heap -> Prop) :
  h !! l = Some (NumberArray xs) ->
  Q (from_option number undefined (last xs)) (<[l := NumberArray (removelast xs)]> h) ->
  wp (pop_numbers l) h Q.
Proof.
  intros Hl HQ. apply wp_bind, (wp_read_numbers l xs); [done|].
  apply wp_bind, wp_write. now apply wp_ret.
Qed.

Lemma wp_push_number l xs v h (Q : unit -> heap -> Prop) :
  h !! l = Some (NumberArray xs) ->
  Q tt (<[l := NumberArray (xs ++ [v])]> h) ->
  wp (push_number l v) h Q.
Proof.
  intros Hl HQ. apply wp_bind, (wp_read_numbers l xs); [done|]. now apply wp_write.
Qed.

Lemma wp_filter_stakes p l xs h (Q : loc -> heap -> Prop) :
  h !! l = Some (StakeArray xs) ->
  (forall l', h !! l' = None -> Q l' (<[l' := StakeArray (List.filter p xs)]> h)) ->
  wp (filter_stakes p l) h Q.
Proof.
  intros Hl HQ. apply wp_bind, (wp_read_stakes l xs); [done|]. now apply wp_alloc.
Qed.

Lemma wp_map_stakes f l xs h (Q : loc -> heap -> Prop) :
  h !! l = Some (StakeArray xs) ->
  (forall l', h !! l' = None -> Q l' (<[l' := StakeArray (f <$> xs)]> h)) ->
  wp (map_stakes f l) h Q.
Proof.
  intros Hl HQ. apply wp_bind, (wp_read_stakes l xs); [done|]. now apply wp_alloc.
Qed.

Lemma wp_reduce_stakes {A} (f : A -> Stake -> A) init l xs h (Q : A -> heap -> Prop) :
  h !! l = Some (StakeArray xs) -> Q (foldl f init xs) h ->
  wp (reduce_stakes f init l) h Q.
Proof.
  intros Hl HQ. apply wp_bind, (wp_read_stakes l xs); [done|]. now apply wp_ret.
Qed.

Lemma wp_length_stakes l xs h (Q : nat -> heap -> Prop) :
  h !! l = Some (StakeArray xs) -> Q (length xs) h -> wp (length_stakes l) h Q.
Proof.
  intros Hl HQ. apply wp_bind, (wp_read_stakes l xs); [done|]. now apply wp_ret.
Qed.

Lemma wp_get_stake l xs n h (Q : option Stake -> heap -> Prop) :
  h !! l = Some (StakeArray xs) -> Q (xs !! n) h -> wp (get_stake l n) h Q.
Proof.
  intros Hl HQ. apply wp_bind, (wp_read_stakes l xs); [done|]. now apply wp_ret.
Qed.

(** The idiom [[...xs].pop()]: the last element of [xs], read off a copy. *)
Lemma wp_last_of_copy_stakes {B} l xs h (k : option Stake -> M B) (Q : B -> heap -> Prop) :
  h !! l = Some (StakeArray xs) ->
  (forall h', h ⊆ h' -> wp (k (last xs)) h' Q) ->
  wp (let! copy := spread_stakes l in let! v := pop_stakes copy in k v) h Q.
Proof.
  intros Hl HQ. apply wp_bind, (wp_spread_stakes l xs); [done|].
  intros c Hc. apply wp_bind, (wp_pop_stakes c xs); [apply lookup_insert_eq|].
  apply HQ. rewrite insert_insert_eq. now apply insert_subseteq.
Qed.

Lemma wp_last_of_copy_numbers {B} l xs h (k : value -> M B) (Q : B -> heap -> Prop) :
  h !! l = Some (NumberArray xs) ->
  (forall h', h ⊆ h' -> wp (k (from_option number undefined (last xs))) h' Q) ->
  wp (let! copy := spread_numbers l in let! v := pop_numbers copy in k v) h Q.
Proof.
  intros Hl HQ. apply wp_bind, (wp_spread_numbers l xs); [done|].
  intros c Hc. apply wp_bind, (wp_pop_numbers c xs); [apply lookup_insert_eq|].
  apply HQ. rewrite insert_insert_eq. now apply insert_subseteq.
Qed.

Lemma agree_except_refl l h : agree_except l h h.
Proof. now intros l' a. Qed.

Lemma agree_except_trans l h1 h2 h3 :
  agree_except l h1 h2 -> agree_except l h2 h3 -> agree_except l h1 h3.
Proof. intros H12 H23 l' a Hne Hl. now apply H23, H12. Qed.

Lemma agree_except_subseteq l h h' : h ⊆ h' -> agree_except l h h'.
Proof. intros Hsub l' a _ Hl. now apply (lookup_weaken h h'). Qed.

Lemma agree_except_insert l a h : agree_except l h (<[l := a]> h).
Proof. intros l' a' Hne Hl. now rewrite lookup_insert_ne. Qed.

(** Arrays created after [h] may change freely without touching [h]. *)
Lemma agree_except_fresh l h h' : h !! l = None -> agree_except l h h' -> h ⊆ h'.
Proof.
  intros Hl Hag. apply map_subseteq_spec. intros l' a Hl'.
  apply Hag; [|done]. intros ->. congruence.
Qed.

End Primitives.

(** ** Specifications of the array programs *)

Section Specs.
Context `{JSMath}.
Implicit Types (h : heap) (stakes history : loc) (ss : list Stake).

Lemma getCurrentConviction_spec stakes ss currentTime alpha h
    (Q : float -> heap -> Prop) :
  h !! stakes = Some (StakeArray ss) ->
  (forall h', h ⊆ h' -> Q (current_conviction ss currentTime alpha) h') ->
  wp (getCurrentConviction stakes currentTime alpha) h Q.
Proof.
  intros Hs HQ. unfold getCurrentConviction.
  apply (wp_last_of_copy_stakes stakes ss); [done|]. intros h' Hsub.
  specialize (HQ h' Hsub). unfold current_conviction in HQ.
  destruct (last ss) as [s|]; now apply wp_ret.
Qed.

Lemma stakesByEntity_spec stakes ss entity h (Q : loc -> heap -> Prop) :
  h !! stakes = Some (StakeArray ss) ->
  (forall r h', h ⊆ h' -> h !! r = None ->
                h' !! r = Some (StakeArray (entity_stakes ss entity)) -> Q r h') ->
  wp (stakesByEntity stakes entity) h Q.
Proof.
  intros Hs HQ. unfold stakesByEntity.
  apply wp_bind, (wp_filter_stakes _ stakes ss); [done|]. intros f Hf.
  eapply wp_map_stakes; [apply lookup_insert_eq|]. intros r Hr.
  assert (h !! r = None) as Hr'.
  { destruct (decide (r = f)) as [->|Hne]; [done|].
    now rewrite lookup_insert_ne in Hr. }
  apply HQ; [|done|apply lookup_insert_eq].
  etrans; [apply (insert_subseteq h f); done|]. now apply insert_subseteq.
Qed.

Lemma convictionFromStakes_spec stakes ss alpha h (Q : float * Z * value -> heap -> Prop) :
  h !! stakes = Some (StakeArray ss) ->
  Q (replay ss alpha) h ->
  wp (convictionFromStakes stakes alpha) h Q.
Proof. intros Hs HQ. now apply (wp_reduce_stakes _ _ stakes ss). Qed.

Lemma getCurrentConvictionByEntity_spec stakes ss entity currentTime alpha h
    (Q : float -> heap -> Prop) :
  h !! stakes = Some (StakeArray ss) ->
  (forall h', h ⊆ h' ->
              Q (current_conviction_by_entity ss entity currentTime alpha) h') ->
  wp (getCurrentConvictionByEntity stakes entity currentTime alpha) h Q.
Proof.
  intros Hs HQ. unfold getCurrentConvictionByEntity.
  apply wp_bind, (stakesByEntity_spec stakes ss); [done|]. intros r h' Hsub Hr Hr'.
  apply wp_bind, (wp_length_stakes r _ h' _ Hr').
  specialize (HQ h' Hsub). unfold current_conviction_by_entity in HQ.
  destruct (0 <? length (entity_stakes ss entity))%nat.
  - apply wp_bind, (convictionFromStakes_spec r _ alpha h' _ Hr').
    destruct (replay (entity_stakes ss entity) alpha) as [[c t] a].
    now apply wp_ret.
  - now apply wp_ret.
Qed.

Lemma pad_loop_spec fuel history timeUnit : forall initTime hist h (Q : Z -> heap -> Prop),
  h !! history = Some (NumberArray hist) ->
  (forall h', agree_except history h h' ->
              h' !! history = Some (NumberArray (pad fuel timeUnit initTime hist).2) ->
              Q (pad fuel timeUnit initTime hist).1 h') ->
  wp (pad_loop fuel history timeUnit initTime) h Q.
Proof.
  induction fuel as [|fuel IH]; intros initTime hist h Q Hh HQ; simpl in *.
  - apply wp_ret, HQ; [apply agree_except_refl | done].
  - destruct (initTime <? 0)%Z.
    + apply wp_bind. destruct (is_multiple initTime timeUnit).
      * apply (wp_push_number history hist); [done|].
        apply (IH _ (hist ++ [0%float])); [apply lookup_insert_eq|].
        intros h' Hag Hh'. apply HQ; [|done].
        eapply agree_except_trans; [apply agree_except_insert | done].
      * apply wp_ret. now apply (IH _ hist).
    + apply wp_ret, HQ; [apply agree_except_refl | done].
Qed.

Lemma consume_loop_spec history recentStakes hist rs t fuel :
  forall st h (Q : locals -> heap -> Prop),
  h !! history = Some (NumberArray hist) ->
  h !! recentStakes = Some (StakeArray rs) ->
  (forall h', h ⊆ h' -> Q (consume fuel hist rs t st) h') ->
  wp (consume_loop fuel history recentStakes t st) h Q.
Proof.
  induction fuel as [|fuel IH]; intros st h Q Hh Hr HQ; simpl in *.
  - now apply wp_ret, HQ.
  - apply wp_bind, (wp_length_stakes recentStakes rs); [done|].
    destruct (Nat.ltb_spec (i st) (length rs)) as [Hlt|Hge].
    + apply wp_bind, (wp_get_stake recentStakes rs); [done|].
      destruct (lookup_lt_is_Some_2 rs (i st) Hlt) as [s Hs]. rewrite Hs in *.
      destruct (time s <=? t)%Z.
      * apply (wp_last_of_copy_numbers history hist); [done|].
        intros h' Hsub. apply IH.
        -- now apply (lookup_weaken h h').
        -- now apply (lookup_weaken h h').
        -- intros h'' Hsub'. apply HQ. now transitivity h'.
      * now apply wp_ret, HQ.
    + rewrite (lookup_ge_None_2 rs (i st)) in HQ by lia. now apply wp_ret, HQ.
Qed.

Lemma sample_loop_spec history recentStakes rs currentTime alpha timeUnit fuel :
  forall t hist st h (Q : locals -> heap -> Prop),
  h !! history = Some (NumberArray hist) ->
  h !! recentStakes = Some (StakeArray rs) ->
  (forall h', agree_except history h h' ->
              h' !! history =
                Some (NumberArray (samples fuel currentTime alpha timeUnit rs t (hist, st)).1) ->
              Q (samples fuel currentTime alpha timeUnit rs t (hist, st)).2 h') ->
  wp (sample_loop fuel history recentStakes currentTime alpha timeUnit t st) h Q.
Proof.
  induction fuel as [|fuel IH]; intros t hist st h Q Hh Hr HQ; simpl in *.
  - apply wp_ret, HQ; [apply agree_except_refl | done].
  - destruct (t <=? currentTime)%Z;
      [|apply wp_ret, HQ; [apply agree_except_refl | done]].
    assert (recentStakes <> history) as Hne by (intros ->; congruence).
    set (hist' := if is_multiple t timeUnit then hist ++ [sample alpha st] else hist) in *.
    assert (forall h1, agree_except history h h1 ->
              h1 !! history = Some (NumberArray hist') ->
              wp (let! len := length_stakes recentStakes in
                  let! st0 := consume_loop len history recentStakes t st in
                  sample_loop fuel history recentStakes currentTime alpha timeUnit (t + 1)
                    (mkLocals (oldAmount st0) (lastConv st0) (timePassed st0 + 1) (i st0)))
                 h1 Q) as Hrest.
    { intros h1 Hag Hh1.
      assert (h1 !! recentStakes = Some (StakeArray rs)) as Hr1 by now apply Hag.
      apply wp_bind, (wp_length_stakes recentStakes rs); [done|].
      apply wp_bind, (consume_loop_spec history recentStakes hist' rs); [done..|].
      intros h2 Hsub. apply (IH _ hist').
      - now apply (lookup_weaken h1 h2).
      - now apply (lookup_weaken h1 h2).
      - intros h3 Hag3 Hh3. apply HQ; [|done].
        eapply agree_except_trans; [exact Hag|].
        eapply agree_except_trans; [apply agree_except_subseteq, Hsub | done]. }
    apply wp_bind. subst hist'. destruct (is_multiple t timeUnit).
    + apply (wp_push_number history hist); [done|].
      apply Hrest; [apply agree_except_insert | apply lookup_insert_eq].
    + apply wp_ret, Hrest; [apply agree_except_refl | done].
Qed.

Lemma getConvictionHistory_spec stakes ss currentTime alpha timeUnit h
    (Q : loc -> heap -> Prop) :
  h !! stakes = Some (StakeArray ss) ->
  (forall r h', h ⊆ h' -> h !! r = None ->
                h' !! r = Some (NumberArray (conviction_history ss currentTime alpha timeUnit)) ->
                Q r h') ->
  wp (getConvictionHistory stakes currentTime alpha timeUnit) h Q.
Proof.
  intros Hs HQ. unfold getConvictionHistory.
  apply wp_bind, wp_alloc. intros history Hfresh.
  assert (stakes <> history) as Hne by (intros ->; congruence).
  apply wp_bind, (pad_loop_spec _ history _ _ []); [apply lookup_insert_eq|].
  intros h1 Hag1 Hh1.
  specialize (HQ history). unfold conviction_history in HQ.
  destruct (pad _ timeUnit (currentTime - 50 * timeUnit - 1) []) as [initTime hist].
  simpl in Hh1 |- *.
  assert (agree_except history h h1) as Hag
    by (eapply agree_except_trans; [apply agree_except_insert | done]).
  assert (h1 !! stakes = Some (StakeArray ss)) as Hs1 by now apply Hag.
  apply wp_bind, (wp_spread_stakes stakes ss); [done|]. intros c1 Hc1.
  apply wp_bind, (wp_filter_stakes _ c1 ss); [apply lookup_insert_eq|].
  intros oldStakes Hold.
  set (h2 := <[oldStakes := _]> (<[c1 := _]> h1)) in *.
  assert (h1 ⊆ h2) as H12.
  { etrans; [apply (insert_subseteq h1 c1); done|]. now apply insert_subseteq. }
  apply wp_bind, (wp_spread_stakes stakes ss); [now apply (lookup_weaken h1 h2)|].
  intros c2 Hc2.
  apply wp_bind, (wp_filter_stakes _ c2 ss); [apply lookup_insert_eq|].
  intros recentStakes Hrecent.
  set (h3 := <[recentStakes := _]> (<[c2 := _]> h2)) in *.
  assert (h2 ⊆ h3) as H23.
  { etrans; [apply (insert_subseteq h2 c2); done|]. now apply insert_subseteq. }
  assert (h3 !! oldStakes = Some (StakeArray (List.filter (fun stake => (time stake <=? initTime)%Z) ss)))
    as Hold3 by (apply (lookup_weaken h2 h3); [apply lookup_insert_eq | done]).
  apply (wp_last_of_copy_stakes oldStakes _ h3 _ _ Hold3).
  intros h4 H34.
  assert (h4 !! recentStakes = Some (StakeArray (List.filter (fun stake => (time stake >? initTime)%Z) ss)))
    as Hrec4 by (apply (lookup_weaken h3 h4); [apply lookup_insert_eq | done]).
  assert (h1 ⊆ h4) as H14 by (etrans; [exact H12|]; etrans; [exact H23|]; done).
  assert (h4 !! history = Some (NumberArray hist)) as Hh4
    by now apply (lookup_weaken h1 h4).
  unfold checkpoint in HQ.
  destruct (last (List.filter (fun stake => (time stake <=? initTime)%Z) ss)) as [s|].
  all: apply wp_bind, (sample_loop_spec history recentStakes _ _ _ _ _ _ hist _ _ _ Hh4 Hrec4).
  all: intros h5 Hag5 Hh5; apply wp_ret, HQ; [|done|done].
  all: apply agree_except_fresh with history; [done|].
  all: eapply agree_except_trans; [exact Hag|].
  all: eapply agree_except_trans; [apply agree_except_subseteq, H14 | done].
Qed.

Lemma getConvictionHistoryByEntity_spec stakes ss entity time alpha timeUnit h
    (Q : loc -> heap -> Prop) :
  h !! stakes = Some (StakeArray ss) ->
  (forall r h', h ⊆ h' -> h !! r = None ->
                h' !! r = Some (NumberArray
                                  (conviction_history (entity_stakes ss entity) time alpha timeUnit)) ->
                Q r h') ->
  wp (getConvictionHistoryByEntity stakes entity time alpha timeUnit) h Q.
Proof.
  intros Hs HQ. unfold getConvictionHistoryByEntity.
  apply wp_bind, (stakesByEntity_spec stakes ss); [done|]. intros e h1 Hsub He He1.
  apply (getConvictionHistory_spec e _ _ _ _ h1 _ He1). intros r h2 Hsub2 Hr Hr2.
  apply HQ; [now transitivity h1 | | done].
  destruct (h !! r) eqn:E; [|done].
  apply (lookup_weaken h h1) in E; [congruence | done].
Qed.

End Specs.

(** ** Point-in-time queries *)

Section Queries.
Context `{JSMath}.
Implicit Types (h : heap) (stakes : loc) (ss : list Stake).

Lemma current_conviction_last ss s currentTime alpha :
  current_conviction (ss ++ [s]) currentTime alpha =
  calculateConviction (currentTime - s.(time))
    (ToNumber s.(conviction)) (ToNumber s.(totalTokensStaked)) alpha.
Proof. unfold current_conviction. now rewrite last_snoc. Qed.

Lemma entity_stakes_absent ss (who : string) :
  (forall s, s ∈ ss -> s.(entity) <> Some who) -> entity_stakes ss who = [].
Proof.
  intros Habs. unfold entity_stakes.
  induction ss as [|[t e ts tts c] ss IH]; [done|]. simpl.
  rewrite bool_decide_eq_false_2.
  - apply IH. intros s Hs. apply Habs. now right.
  - intros He. apply (Habs (mkStake t e ts tts c)); [now left | done].
Qed.

(** C3: on a non-empty list, [getCurrentConviction] evaluates the decay
    formula from the last event of the list to [currentTime]. *)
Theorem getCurrentConviction_last_stake h stakes ss s currentTime alpha :
  h !! stakes = Some (StakeArray (ss ++ [s])) ->
  wp (getCurrentConviction stakes currentTime alpha) h
    (fun r _ =>
       r = calculateConviction (currentTime - s.(time))
             (ToNumber s.(conviction)) (ToNumber s.(totalTokensStaked)) alpha).
Proof.
  intros Hs. apply (getCurrentConviction_spec stakes (ss ++ [s])); [done|].
  intros h' _. apply current_conviction_last.
Qed.

(** C6: without events the conviction is exactly [0]: for the empty list,
    and for an entity that no event of the list names. *)
Theorem no_stakes_no_conviction h stakes (who : string) currentTime alpha :
  (h !! stakes = Some (StakeArray []) ->
   wp (getCurrentConviction stakes currentTime alpha) h (fun r _ => r = 0%float))
  /\ (forall ss,
        h !! stakes = Some (StakeArray ss) ->
        (forall s, s ∈ ss -> s.(entity) <> Some who) ->
        wp (getCurrentConvictionByEntity stakes who currentTime alpha) h
          (fun r _ => r = 0%float)).
Proof.
  split.
  - intros Hs. now apply (getCurrentConviction_spec stakes []).
  - intros ss Hs Habs. apply (getCurrentConvictionByEntity_spec stakes ss); [done|].
    intros h' _. unfold current_conviction_by_entity.
    now rewrite entity_stakes_absent.
Qed.

End Queries.

(** The round trip of the specification: the single event
    [{ time: 0, totalTokensStaked: 100, conviction: 0 }], read at time 10 with
    alpha 0.9. *)
Lemma getCurrentConviction_round_trip :
  wp (getCurrentConviction 1 10 0.9) (heap_of [genesis_stake])
    (fun r _ => r = calculateConviction 10 0%float 100%float 0.9%float).
Proof.
  apply (getCurrentConviction_last_stake (heap_of [genesis_stake]) 1 [] genesis_stake 10 0.9).
  reflexivity.
Defined.

Lemma no_stakes_no_conviction_witness :
  wp (getCurrentConviction 1 10 0.9) (heap_of []) (fun r _ => r = 0%float)
  /\ wp (getCurrentConvictionByEntity 1 "bob" 10 0.9) (heap_of [genesis_stake])
       (fun r _ => r = 0%float).
Proof.
  split.
  - apply (proj1 (no_stakes_no_conviction (heap_of []) 1 "bob" 10 0.9)). reflexivity.
  - apply (proj2 (no_stakes_no_conviction (heap_of [genesis_stake]) 1 "bob" 10 0.9)
             [genesis_stake]).
    + reflexivity.
    + intros s Hs. apply list_elem_of_singleton in Hs. now subst.
Defined.

(** ** The input array is left alone *)

(** [pop] itself does shorten its array: the functions are safe because they
    apply it to copies only. *)
Lemma pop_stakes_mutates (h : heap) (l : loc) (ss : list Stake) (s : Stake) :
  h !! l = Some (StakeArray (ss ++ [s])) ->
  wp (pop_stakes l) h (fun r h' => r = Some s /\ h' !! l = Some (StakeArray ss)).
Proof.
  intros Hl. apply (wp_pop_stakes l (ss ++ [s])); [done|].
  rewrite last_snoc, removelast_last, lookup_insert_eq. done.
Qed.

Section Frame.
Context `{JSMath}.

(** C10: no operation changes the array it is given: after
    [getCurrentConviction], [getCurrentConvictionByEntity],
    [getConvictionHistory], [getConvictionHistoryByEntity],
    [convictionFromStakes] and [stakesByEntity] the heap holds the same list
    at [stakes] (and the same arrays everywhere else it held one). *)
Theorem stakes_array_unchanged (h : heap) (stakes : loc) (ss : list Stake)
    (who : string) (currentTime : Z) (alpha : float) (timeUnit : Z) :
  h !! stakes = Some (StakeArray ss) ->
  wp (getCurrentConviction stakes currentTime alpha) h (unchanged h stakes ss)
  /\ wp (getCurrentConvictionByEntity stakes who currentTime alpha) h (unchanged h stakes ss)
  /\ wp (getConvictionHistory stakes currentTime alpha timeUnit) h (unchanged h stakes ss)
  /\ wp (getConvictionHistoryByEntity stakes who currentTime alpha timeUnit) h
       (unchanged h stakes ss)
  /\ wp (convictionFromStakes stakes alpha) h (unchanged h stakes ss)
  /\ wp (stakesByEntity stakes who) h (unchanged h stakes ss).
Proof.
  intros Hs.
  assert (forall h', h ⊆ h' -> h' !! stakes = Some (StakeArray ss) /\ h ⊆ h') as Hun
    by (intros h' Hsub; split; [now apply (lookup_weaken h h') | done]).
  repeat split.
  - apply (getCurrentConviction_spec stakes ss); [done|]. intros h'. apply Hun.
  - apply (getCurrentConvictionByEntity_spec stakes ss); [done|]. intros h'. apply Hun.
  - apply (getConvictionHistory_spec stakes ss); [done|]. intros r h' Hsub _ _. now apply Hun.
  - apply (getConvictionHistoryByEntity_spec stakes ss); [done|].
    intros r h' Hsub _ _. now apply Hun.
  - apply (convictionFromStakes_spec stakes ss); [done|]. now apply Hun.
  - apply (stakesByEntity_spec stakes ss); [done|]. intros r h' Hsub _ _. now apply Hun.
Qed.

End Frame.

Lemma stakes_array_unchanged_witness :
  let h := heap_of [genesis_stake] in
  wp (getCurrentConviction 1 10 0.9) h (unchanged h 1 [genesis_stake])
  /\ wp (getCurrentConvictionByEntity 1 "alice" 10 0.9) h (unchanged h 1 [genesis_stake])
  /\ wp (getConvictionHistory 1 10 0.9 1) h (unchanged h 1 [genesis_stake])
  /\ wp (getConvictionHistoryByEntity 1 "alice" 10 0.9 1) h (unchanged h 1 [genesis_stake])
  /\ wp (convictionFromStakes 1 0.9) h (unchanged h 1 [genesis_stake])
  /\ wp (stakesByEntity 1 "alice") h (unchanged h 1 [genesis_stake]).
Proof.
  apply (stakes_array_unchanged (heap_of [genesis_stake]) 1 [genesis_stake] "alice" 10 0.9 1).
  reflexivity.
Defined.

(** ** The length of the history *)

Lemma is_multiple_mod (t timeUnit : Z) :
  (0 < timeUnit)%Z -> is_multiple t timeUnit = (t mod timeUnit =? 0)%Z.
Proof.
  intros Hu. unfold is_multiple.
  destruct (Z.eqb_spec timeUnit 0) as [|_]; [lia|].
  destruct (Z.eqb_spec (Z.rem t timeUnit) 0) as [Hr|Hr],
           (Z.eqb_spec (t mod timeUnit) 0) as [Hm|Hm]; try reflexivity; exfalso.
  - apply Hm. apply Z.rem_divide in Hr; [|lia]. apply Z.mod_divide; [lia | done].
  - apply Hr. apply Z.mod_divide in Hm; [|lia]. apply Z.rem_divide; [lia | done].
Qed.

Lemma count_multiples_app (n m : nat) (t timeUnit : Z) :
  count_multiples (n + m) t timeUnit =
  (count_multiples n t timeUnit + count_multiples m (t + Z.of_nat n) timeUnit)%nat.
Proof.
  revert t. induction n as [|n IH]; intros t.
  - simpl. now rewrite Z.add_0_r.
  - cbn [count_multiples Nat.add]. rewrite IH.
    replace (t + 1 + Z.of_nat n)%Z with (t + Z.of_nat (S n))%Z by lia.
    lia.
Qed.

(** In closed form, with the floor division of [Z]. *)
Lemma count_multiples_div (n : nat) (t timeUnit : Z) :
  (0 < timeUnit)%Z ->
  Z.of_nat (count_multiples n t timeUnit) =
  ((t + Z.of_nat n - 1) / timeUnit - (t - 1) / timeUnit)%Z.
Proof.
  intros Hu. revert t. induction n as [|n IH]; intros t.
  - cbn [count_multiples]. replace (t + Z.of_nat 0 - 1)%Z with (t - 1)%Z by lia. lia.
  - cbn [count_multiples]. rewrite Nat2Z.inj_add, IH, is_multiple_mod by done.
    replace (t + 1 + Z.of_nat n - 1)%Z with (t + Z.of_nat (S n) - 1)%Z by lia.
    replace (t + 1 - 1)%Z with t by lia.
    assert (Z.of_nat (if (t mod timeUnit =? 0)%Z then 1 else 0) =
            (t / timeUnit - (t - 1) / timeUnit)%Z) as ->; [|lia].
    destruct (Z.eqb_spec (t mod timeUnit) 0) as [Hm|Hm]; simpl.
    + assert ((t - 1) / timeUnit = t / timeUnit - 1)%Z; [|lia].
      symmetry. apply Z.div_unique with (timeUnit - 1)%Z; [lia|].
      pose proof (Z.div_mod t timeUnit). lia.
    + assert ((t - 1) / timeUnit = t / timeUnit)%Z; [|lia].
      symmetry. apply Z.div_unique with (t mod timeUnit - 1)%Z.
      * pose proof (Z.mod_pos_bound t timeUnit Hu). lia.
      * pose proof (Z.div_mod t timeUnit). lia.
Qed.

Section Length.
Context `{JSMath}.

Lemma pad_fst (timeUnit : Z) (fuel : nat) : forall initTime history,
  fuel = Z.to_nat (- initTime) ->
  (pad fuel timeUnit initTime history).1 = (initTime + Z.of_nat fuel)%Z.
Proof.
  induction fuel as [|fuel IH]; intros initTime history Hf; simpl.
  - lia.
  - destruct (Z.ltb_spec initTime 0); [|lia]. rewrite IH; lia.
Qed.

Lemma pad_length (timeUnit : Z) (fuel : nat) : forall initTime history,
  fuel = Z.to_nat (- initTime) ->
  length (pad fuel timeUnit initTime history).2 =
  (length history + count_multiples fuel initTime timeUnit)%nat.
Proof.
  induction fuel as [|fuel IH]; intros initTime history Hf; simpl.
  - lia.
  - destruct (Z.ltb_spec initTime 0); [|lia]. rewrite IH by lia.
    destruct (is_multiple initTime timeUnit); [rewrite length_app; simpl|]; lia.
Qed.

Lemma tick_length alpha timeUnit rs t history st :
  length (tick alpha timeUnit rs t (history, st)).1 =
  (length history + if is_multiple t timeUnit then 1 else 0)%nat.
Proof.
  unfold tick. simpl.
  destruct (is_multiple t timeUnit); [rewrite length_app; simpl|]; lia.
Qed.

Lemma samples_length currentTime alpha timeUnit rs (fuel : nat) : forall t hs,
  fuel = Z.to_nat (currentTime - t + 1) ->
  length (samples fuel currentTime alpha timeUnit rs t hs).1 =
  (length hs.1 + count_multiples fuel t timeUnit)%nat.
Proof.
  induction fuel as [|fuel IH]; intros t [history st] Hf; simpl.
  - lia.
  - destruct (Z.leb_spec t currentTime); [|lia]. rewrite IH by lia.
    pose proof (tick_length alpha timeUnit rs t history st) as Ht.
    unfold tick in *. simpl in *. lia.
Qed.

(** The history holds one sample per multiple of [timeUnit] among the
    [50 * timeUnit + 2] ticks that end at [currentTime], whatever the
    events. *)
Lemma conviction_history_length ss currentTime alpha timeUnit :
  (0 <= currentTime)%Z -> (0 < timeUnit)%Z ->
  Z.of_nat (length (conviction_history ss currentTime alpha timeUnit)) =
  (50 + currentTime / timeUnit - (currentTime - 2) / timeUnit)%Z.
Proof.
  intros Hc Hu. unfold conviction_history.
  set (t0 := (currentTime - 50 * timeUnit - 1)%Z).
  pose proof (pad_fst timeUnit (Z.to_nat (- t0)) t0 [] eq_refl) as Hfst.
  pose proof (pad_length timeUnit (Z.to_nat (- t0)) t0 [] eq_refl) as Hlen.
  destruct (pad (Z.to_nat (- t0)) timeUnit t0 []) as [initTime history].
  simpl in Hfst, Hlen.
  rewrite samples_length by reflexivity. simpl. rewrite Hlen.
  rewrite !Nat2Z.inj_add, !count_multiples_div by done. subst initTime.
  replace (t0 + Z.of_nat (Z.to_nat (- t0)) +
           Z.of_nat (Z.to_nat (currentTime - (t0 + Z.of_nat (Z.to_nat (- t0))) + 1)) - 1)%Z
    with currentTime by lia.
  replace (t0 + Z.of_nat (Z.to_nat (- t0)) - 1)%Z
    with (t0 + Z.of_nat (Z.to_nat (- t0)) - 1)%Z by lia.
  assert ((t0 - 1) / timeUnit = (currentTime - 2) / timeUnit - 50)%Z as ->.
  { subst t0. replace (currentTime - 50 * timeUnit - 1 - 1)%Z
      with (currentTime - 2 + (-50) * timeUnit)%Z by lia.
    rewrite Z.div_add by lia. lia. }
  lia.
Qed.

End Length.

Section HistoryLength.
Context `{JSMath}.

(** C1, as far as the code goes: while the ticks are safe integers
    ([safe_ticks]), the number of samples is a function of [currentTime] and
    [timeUnit] alone ([currentTime >= 0], [timeUnit >= 1]), the same for every
    list of events and every [alpha]; for [timeUnit = 5] it is 51 at every
    such [currentTime] that is a multiple of 5 (so at 0, 10 and 100000). *)
Theorem getConvictionHistory_length :
  exists samples_count : Z -> Z -> nat,
    (forall (h : heap) (stakes : loc) (ss : list Stake)
            (currentTime : Z) (alpha : float) (timeUnit : Z),
        h !! stakes = Some (StakeArray ss) ->
        (0 <= currentTime)%Z -> (1 <= timeUnit)%Z ->
        safe_ticks currentTime timeUnit ->
        wp (getConvictionHistory stakes currentTime alpha timeUnit) h
          (fun r h' =>
             exists history,
               h' !! r = Some (NumberArray history)
               /\ length history = samples_count currentTime timeUnit))
    /\ (forall currentTime,
          (0 <= currentTime)%Z -> (currentTime mod 5 = 0)%Z ->
          safe_ticks currentTime 5 ->
          samples_count currentTime 5%Z = 51%nat).
Proof.
  exists (fun currentTime timeUnit =>
            Z.to_nat (50 + currentTime / timeUnit - (currentTime - 2) / timeUnit)).
  split.
  - intros h stakes ss currentTime alpha timeUnit Hs Hc Hu _.
    apply (getConvictionHistory_spec stakes ss); [done|].
    intros r h' _ _ Hr. eexists. split; [exact Hr|].
    rewrite <- (conviction_history_length ss currentTime alpha timeUnit) by lia.
    now rewrite Nat2Z.id.
  - intros currentTime Hc Hmod _.
    pose proof (Z.div_mod currentTime 5). pose proof (Z.div_mod (currentTime - 2) 5).
    pose proof (Z.mod_pos_bound (currentTime - 2) 5). lia.
Qed.

End HistoryLength.

(** At [currentTime = 100000] with [timeUnit = 5]: 51 samples. *)
Lemma getConvictionHistory_length_witness :
  wp (getConvictionHistory 1 100000 0.9 5) (heap_of [genesis_stake])
    (fun r h' =>
       exists history,
         h' !! r = Some (NumberArray history) /\ length history = 51%nat).
Proof.
  destruct getConvictionHistory_length as (samples_count & Hlen & H51).
  eapply wp_mono.
  - apply (Hlen (heap_of [genesis_stake]) 1%positive [genesis_stake] 100000%Z 0.9%float 5%Z);
      [reflexivity | lia | lia | unfold safe_ticks; lia].
  - intros r h' (history & Hr & Hl). exists history. split; [exact Hr|].
    rewrite Hl. apply H51; [lia | reflexivity | unfold safe_ticks; lia].
Defined.

(** The count is not 51 at every [currentTime]: with [timeUnit = 5] the
    history at time 2 has 50 samples; and with [timeUnit = 1] the history at
    time 0 has 52. *)
Lemma getConvictionHistory_length_counterexample :
  wp (getConvictionHistory 1 2 0.9 5) (heap_of [])
    (fun r h' => exists history,
         h' !! r = Some (NumberArray history) /\ length history = 50%nat)
  /\ wp (getConvictionHistory 1 0 0.9 1) (heap_of [])
       (fun r h' => exists history,
            h' !! r = Some (NumberArray history) /\ length history = 52%nat).
Proof.
  split.
  - apply (getConvictionHistory_spec 1 []); [reflexivity|].
    intros r h' _ _ Hr. eexists. split; [exact Hr|]. vm_compute. reflexivity.
  - apply (getConvictionHistory_spec 1 []); [reflexivity|].
    intros r h' _ _ Hr. eexists. split; [exact Hr|]. vm_compute. reflexivity.
Qed.

(** ** The checkpoint after a stake change *)

Section Checkpoint.
Context `{JSMath}.
Implicit Types (rs : list Stake) (st : locals) (t : Z).

(** No event is due: the loop does not run. *)
Lemma consume_idle fuel history rs t st :
  (forall s, rs !! st.(i) = Some s -> (t < s.(time))%Z) ->
  consume fuel history rs t st = st.
Proof.
  intros Hnext. destruct fuel as [|fuel]; [done|]. simpl.
  destruct (rs !! i st) as [s|]; [|done].
  specialize (Hnext s eq_refl). destruct (Z.leb_spec (time s) t); [lia | done].
Qed.

(** The events [i .. j] are due and the next one is not: the loop takes them
    all and leaves the variables of the last one. *)
Lemma consume_due history rs t (j : nat) s fuel : forall st,
  (st.(i) <= j)%nat -> rs !! j = Some s ->
  (forall j' s', (st.(i) <= j' <= j)%nat -> rs !! j' = Some s' -> (s'.(time) <= t)%Z) ->
  (forall s', rs !! S j = Some s' -> (t < s'.(time))%Z) ->
  (j - st.(i) < fuel)%nat ->
  consume fuel history rs t st =
  mkLocals s.(totalTokensStaked) (last_value history) 0 (S j).
Proof.
  induction fuel as [|fuel IH]; intros st Hij Hj Hdue Hnext Hfuel; [lia|]. simpl.
  destruct (lookup_lt_is_Some_2 rs (i st)) as [si Hsi].
  { apply lookup_lt_Some in Hj. lia. }
  rewrite Hsi. pose proof (Hdue (i st) si ltac:(lia) Hsi) as Hdue_i.
  destruct (Z.leb_spec (time si) t); [|lia].
  destruct (decide (i st = j)) as [Heq|Hne].
  - rewrite Heq in Hsi. assert (si = s) as -> by congruence.
    rewrite consume_idle; [now rewrite Heq|]. simpl. now rewrite Heq.
  - apply IH; simpl; try done; try lia.
    intros j' s' Hj'. apply Hdue. lia.
Qed.

Lemma samples_S fuel currentTime alpha timeUnit rs t hs :
  samples (S fuel) currentTime alpha timeUnit rs t hs =
  if (t <=? currentTime)%Z
  then samples fuel currentTime alpha timeUnit rs (t + 1) (tick alpha timeUnit rs t hs)
  else hs.
Proof. reflexivity. Qed.

Lemma samples_past fuel currentTime alpha timeUnit rs t hs :
  (currentTime < t)%Z -> samples fuel currentTime alpha timeUnit rs t hs = hs.
Proof.
  intros Hlt. destruct fuel as [|fuel]; [done|]. simpl.
  destruct (Z.leb_spec t currentTime); [lia | done].
Qed.

Lemma samples_app (n m : nat) currentTime alpha timeUnit rs : forall t hs,
  samples (n + m) currentTime alpha timeUnit rs t hs =
  samples m currentTime alpha timeUnit rs (t + Z.of_nat n)
    (samples n currentTime alpha timeUnit rs t hs).
Proof.
  induction n as [|n IH]; intros t hs.
  - simpl. now rewrite Z.add_0_r.
  - cbn [samples Nat.add]. destruct (Z.leb_spec t currentTime).
    + rewrite IH. f_equal. lia.
    + rewrite samples_past; [done | lia].
Qed.

(** The loop only ever appends to the history. *)
Lemma samples_extends (n : nat) currentTime alpha timeUnit rs : forall t history st,
  exists rest,
    (samples n currentTime alpha timeUnit rs t (history, st)).1 = history ++ rest.
Proof.
  induction n as [|n IH]; intros t history st; simpl.
  - exists []. now rewrite app_nil_r.
  - destruct (t <=? currentTime)%Z; [|exists []; now rewrite app_nil_r].
    destruct (is_multiple t timeUnit).
    + edestruct IH as [rest ->]. eexists. now rewrite <- app_assoc.
    + apply IH.
Qed.

(** From a tick on which nothing is due until the next sample, the variables
    only age: the next sample is the formula at their age. *)
Lemma samples_next_sample currentTime alpha timeUnit rs (n : nat) : forall t history st,
  (forall d, (0 <= d < Z.of_nat n)%Z -> is_multiple (t + d) timeUnit = false) ->
  is_multiple (t + Z.of_nat n) timeUnit = true ->
  (t + Z.of_nat n <= currentTime)%Z ->
  (forall s, rs !! st.(i) = Some s -> (t + Z.of_nat n <= s.(time))%Z) ->
  (samples (S n) currentTime alpha timeUnit rs t (history, st)).1 =
  history ++ [calculateConviction (st.(timePassed) + Z.of_nat n)
                (ToNumber st.(lastConv)) (ToNumber st.(oldAmount)) alpha].
Proof.
  induction n as [|n IH]; intros t history st Hquiet Hnext Hc Hpending.
  - cbn [samples]. destruct (Z.leb_spec t currentTime); [|lia].
    unfold tick. rewrite Z.add_0_r in Hnext. rewrite Hnext. simpl.
    now rewrite Z.add_0_r.
  - rewrite samples_S. destruct (Z.leb_spec t currentTime); [|lia].
    pose proof (Hquiet 0%Z ltac:(lia)) as Hq0. rewrite Z.add_0_r in Hq0.
    unfold tick. rewrite Hq0.
    rewrite consume_idle by (intros s Hs; specialize (Hpending s Hs); lia).
    rewrite IH; cbn [timePassed lastConv oldAmount i].
    + now replace (timePassed st + 1 + Z.of_nat n)%Z
        with (timePassed st + Z.of_nat (S n))%Z by lia.
    + intros d Hd. replace (t + 1 + d)%Z with (t + (d + 1))%Z by lia. apply Hquiet. lia.
    + rewrite <- Hnext. f_equal. lia.
    + lia.
    + intros s Hs. specialize (Hpending s Hs). lia.
Qed.

(** C2: when the events [i .. j] of [recentStakes] are taken up at tick [t],
    the loop's variables become the amount of the last of them, an age of 0
    and the last element of the history as it then stands ([undefined] when
    the history is empty); the history itself is not popped.  The sample
    emitted at the next sampling tick [next] is therefore
    [calculateConviction(next - t, last sample, new amount, alpha)]. *)
Theorem checkpoint_is_last_sample (h : heap) (history recentStakes : loc)
    (hist : list float) rs (currentTime : Z) (alpha : float) (timeUnit : Z)
    t (next : Z) st (j : nat) (s : Stake) (fuel : nat) :
  h !! history = Some (NumberArray hist) ->
  h !! recentStakes = Some (StakeArray rs) ->
  (st.(i) <= j)%nat -> rs !! j = Some s ->
  (forall j' s', (st.(i) <= j' <= j)%nat -> rs !! j' = Some s' -> (s'.(time) <= t)%Z) ->
  (forall s', rs !! S j = Some s' -> (next <= s'.(time))%Z) ->
  (t < next <= currentTime)%Z ->
  is_multiple next timeUnit = true ->
  (forall t', (t < t' < next)%Z -> is_multiple t' timeUnit = false) ->
  (Z.to_nat (next - t + 1) <= fuel)%nat ->
  wp (consume_loop (length rs) history recentStakes t st) h
    (fun st' h' =>
       st' = mkLocals s.(totalTokensStaked) (last_value hist) 0 (S j)
       /\ h' !! history = Some (NumberArray hist))
  /\ let hist1 := if is_multiple t timeUnit then hist ++ [sample alpha st] else hist in
     wp (sample_loop fuel history recentStakes currentTime alpha timeUnit t st) h
       (fun _ h' =>
          exists rest,
            h' !! history =
            Some (NumberArray
                    (hist1
                     ++ [calculateConviction (next - t) (ToNumber (last_value hist1))
                           (ToNumber s.(totalTokensStaked)) alpha]
                     ++ rest))).
Proof.
  intros Hh Hr Hij Hj Hdue Hnext Ht Hmul Hquiet Hfuel.
  assert (j < length rs)%nat as Hlen by now apply lookup_lt_Some in Hj.
  assert (forall hist0, consume (length rs) hist0 rs t st =
            mkLocals s.(totalTokensStaked) (last_value hist0) 0 (S j)) as Hconsume.
  { intros hist0. apply consume_due; try done; [|lia].
    intros s' Hs'. specialize (Hnext s' Hs'). lia. }
  split.
  - apply (consume_loop_spec history recentStakes hist rs); [done..|].
    intros h' Hsub. split; [apply Hconsume | now apply (lookup_weaken h h')].
  - intros hist1.
    apply (sample_loop_spec history recentStakes rs _ _ _ _ _ hist); [done..|].
    intros h' _ ->.
    replace fuel with (S (S (Z.to_nat (next - t - 1))) + (fuel - Z.to_nat (next - t + 1)))%nat
      by lia.
    rewrite samples_app.
    set (n := Z.to_nat (next - t - 1)).
    assert ((samples (S (S n)) currentTime alpha timeUnit rs t (hist, st)).1 =
            hist1 ++ [calculateConviction (next - t) (ToNumber (last_value hist1))
                        (ToNumber s.(totalTokensStaked)) alpha]) as Hfirst.
    { rewrite samples_S. destruct (Z.leb_spec t currentTime); [|lia].
      unfold tick. fold hist1. rewrite Hconsume.
      cbn [oldAmount lastConv timePassed i].
      rewrite (samples_next_sample currentTime alpha timeUnit rs n);
        cbn [timePassed lastConv oldAmount i].
      - now replace (0 + 1 + Z.of_nat n)%Z with (next - t)%Z by lia.
      - intros d Hd. apply Hquiet. lia.
      - rewrite <- Hmul. f_equal. lia.
      - lia.
      - intros s' Hs'. specialize (Hnext s' Hs'). lia. }
    destruct (samples (S (S n)) currentTime alpha timeUnit rs t (hist, st)) as [hist2 st2].
    cbn [fst] in Hfirst. subst hist2.
    destruct (samples_extends (fuel - Z.to_nat (next - t + 1)) currentTime alpha timeUnit rs
                (t + Z.of_nat (S (S n)))
                (hist1 ++ [calculateConviction (next - t) (ToNumber (last_value hist1))
                             (ToNumber s.(totalTokensStaked)) alpha]) st2) as [rest ->].
    exists rest. now rewrite <- app_assoc.
Qed.

End Checkpoint.

(** ** The loops run to their guards

    The fuel of each loop is a bound on its turns: with more fuel the loop
    computes the same, so it stops because its guard fails. *)

Section Fuel.
Context `{JSMath}.

Lemma pad_fuel timeUnit (fuel : nat) : forall initTime history,
  (Z.to_nat (- initTime) <= fuel)%nat ->
  pad fuel timeUnit initTime history = pad (Z.to_nat (- initTime)) timeUnit initTime history.
Proof.
  induction fuel as [|fuel IH]; intros initTime history Hfuel.
  - now replace (Z.to_nat (- initTime)) with 0%nat by lia.
  - destruct (Z.ltb_spec initTime 0) as [Hlt|Hge].
    + replace (Z.to_nat (- initTime)) with (S (Z.to_nat (- (initTime + 1)))) by lia.
      cbn [pad]. destruct (Z.ltb_spec initTime 0); [|lia]. apply IH. lia.
    + replace (Z.to_nat (- initTime)) with 0%nat by lia.
      cbn [pad]. now destruct (Z.ltb_spec initTime 0); [lia|].
Qed.

Lemma pad_exit timeUnit initTime history :
  (0 <= (pad (Z.to_nat (- initTime)) timeUnit initTime history).1)%Z.
Proof.
  remember (Z.to_nat (- initTime)) as fuel eqn:Hfuel.
  revert initTime history Hfuel. induction fuel as [|fuel IH]; intros initTime history Hfuel.
  - simpl. lia.
  - cbn [pad]. destruct (Z.ltb_spec initTime 0); [|simpl; lia]. apply IH. lia.
Qed.

Lemma consume_fuel history rs t (fuel : nat) : forall st,
  (length rs - st.(i) <= fuel)%nat ->
  consume fuel history rs t st = consume (length rs - st.(i)) history rs t st.
Proof.
  induction fuel as [|fuel IH]; intros st Hfuel.
  - now replace (length rs - i st)%nat with 0%nat by lia.
  - destruct (rs !! i st) as [s|] eqn:Hs.
    + apply lookup_lt_Some in Hs as Hlt.
      replace (length rs - i st)%nat with (S (length rs - S (i st))) by lia.
      cbn [consume]. rewrite Hs. destruct (time s <=? t)%Z; [|done].
      apply (IH (mkLocals (totalTokensStaked s) (last_value history) 0 (S (i st)))).
      simpl. lia.
    + apply lookup_ge_None in Hs.
      replace (length rs - i st)%nat with 0%nat by lia.
      cbn [consume]. now rewrite (lookup_ge_None_2 rs (i st)).
Qed.

Lemma samples_fuel currentTime alpha timeUnit rs (fuel : nat) : forall t hs,
  (Z.to_nat (currentTime - t + 1) <= fuel)%nat ->
  samples fuel currentTime alpha timeUnit rs t hs =
  samples (Z.to_nat (currentTime - t + 1)) currentTime alpha timeUnit rs t hs.
Proof.
  induction fuel as [|fuel IH]; intros t hs Hfuel.
  - now replace (Z.to_nat (currentTime - t + 1)) with 0%nat by lia.
  - destruct (Z.leb_spec t currentTime) as [Hle|Hgt].
    + replace (Z.to_nat (currentTime - t + 1))
        with (S (Z.to_nat (currentTime - (t + 1) + 1))) by lia.
      rewrite !samples_S. destruct (Z.leb_spec t currentTime); [|lia]. apply IH. lia.
    + replace (Z.to_nat (currentTime - t + 1)) with 0%nat by lia.
      now rewrite samples_past.
Qed.

End Fuel.

(** An instance: the history is [[5]] when, at tick 3, an event that sets the
    stake to 100 is taken up; the next sample, at tick 5, starts from 5. *)
Lemma checkpoint_is_last_sample_witness :
  let st := mkLocals (number 50) (number 1) 2 0 in
  wp (consume_loop 1 2 1 3 st) sampling_heap
    (fun st' h' =>
       st' = mkLocals (number 100) (number 5) 0 1
       /\ h' !! 2%positive = Some (NumberArray [5%float]))
  /\ wp (sample_loop 3 2 1 10 0.9 5 3 st) sampling_heap
       (fun _ h' =>
          exists rest,
            h' !! 2%positive =
            Some (NumberArray
                    ([5%float] ++ [calculateConviction 2 5%float 100%float 0.9%float] ++ rest))).
Proof.
  apply (checkpoint_is_last_sample sampling_heap 2 1 [5%float] [late_stake] 10 0.9 5 3 5
           (mkLocals (number 50) (number 1) 2 0) 0 late_stake 3).
  - reflexivity.
  - reflexivity.
  - simpl. lia.
  - reflexivity.
  - intros j' s' Hj' Hs'. simpl in Hj'. assert (j' = 0)%nat as -> by lia.
    injection Hs' as <-. simpl. lia.
  - intros s' Hs'. discriminate Hs'.
  - lia.
  - reflexivity.
  - intros t' Ht'. assert (t' = 4)%Z as -> by lia. reflexivity.
  - simpl. lia.
Defined.

(** ** A checkpoint read from the empty history *)



Section EmptyHistory.
Context `{JSMath}.
Implicit Types (rs : list Stake) (st : locals) (t : Z) (history : list float).






Section Invariant.
Variables (currentTime : Z) (alpha : float) (timeUnit initTime : Z).
Variables (s1 : Stake) (rs : list Stake).
Hypothesis unit_pos : (0 < timeUnit)%Z.
Hypothesis off_phase : (initTime mod timeUnit <> 0)%Z.
Hypothesis first_event :
  (initTime < s1.(time) < timeUnit * (initTime / timeUnit + 1))%Z.





End Invariant.
End EmptyHistory.

Section EmptyHistoryCheckpoint.
Context `{JSMath}.

Lemma checkpoint_i oldStakes initTime alpha : (checkpoint oldStakes initTime alpha).(i) = 0%nat.
Proof. unfold checkpoint. now destruct (last oldStakes). Qed.


End EmptyHistoryCheckpoint.



(** The order of the log matters: behind an event that is never due, the
    early event is never taken up, and the history is all zeros. *)
Lemma unordered_log_escapes :
  wp (getConvictionHistory 1 253 0.9 5)
    (heap_of [mkStake 1000 None undefined (number 7) (number 0); late_stake])
    (fun r h' =>
       exists history,
         h' !! r = Some (NumberArray history) /\ Forall (fun x => x = 0%float) history).
Proof.
  apply (getConvictionHistory_spec 1 [mkStake 1000 None undefined (number 7) (number 0); late_stake]);
    [reflexivity|].
  intros r h' _ _ Hr. eexists. split; [exact Hr|]. vm_compute. repeat constructor.
Qed.

(** ** Zero elapsed time *)

Section ZeroTime.
Context `{JSMath}.
Open Scope float_scope.

(** C7, on doubles: with [0 < alpha < 1], a finite [x] and a [y0] that is not
    NaN, zero elapsed time returns [y0] (as [===] compares numbers). *)
Theorem calculateConviction_zero_time (y0 x alpha : float) :
  (0 <? alpha) = true -> (alpha <? 1) = true ->
  is_finite x = true -> is_nan y0 = false ->
  (calculateConviction 0 y0 x alpha =? y0) = true.
Proof.
  intros Ha0 Ha1 Hx Hy0. unfold calculateConviction.
  cbn [add sub mul div pow one float_arith].
  rewrite pow_zero, IEEE.mul_one_r. change (1 - 1) with 0.
  destruct (IEEE.mul_zero_r_finite x Hx) as [s Hz].
  destruct (IEEE.div_zero_l _ (1 - alpha) s false Hz (IEEE.sub_one_nonzero alpha Ha0 Ha1))
    as [s' Hq].
  exact (IEEE.add_zero_r_eqb y0 _ s' Hy0 Hq).
Qed.

End ZeroTime.

Lemma calculateConviction_zero_time_witness :
  (calculateConviction 0 5 100 0.9 =? 5)%float = true.
Proof.
  apply (calculateConviction_zero_time 5 100 0.9); reflexivity.
Defined.

(** An infinite stake is not returned unchanged: [Infinity * 0] is NaN. *)
Lemma calculateConviction_zero_time_counterexample :
  ((0 <? 0.9) = true /\ (0.9 <? 1) = true
   /\ calculateConviction 0 1 infinity 0.9 = nan
   /\ (calculateConviction 0 1 infinity 0.9 =? 1) = false)%float.
Proof. repeat split. Qed.

(** ** The time left to pass *)

Section RemainingTime.
Context `{JSMath}.
Open Scope float_scope.

(** When the argument of the logarithm, as computed, is negative, the
    remaining time is NaN. *)
Theorem getRemainingTimeToPass_NaN (threshold conviction amount alpha : float) :
  (((alpha - 1) * threshold + amount) / ((alpha - 1) * conviction + amount) <? 0) = true ->
  getRemainingTimeToPass threshold conviction amount alpha = nan.
Proof.
  intros Hneg. unfold getRemainingTimeToPass.
  rewrite (log_neg _ Hneg). apply IEEE.div_nan_l.
Qed.

End RemainingTime.

(** The example of the specification: [threshold = 1000], [conviction = 0],
    [amount = 1], [alpha = 0.9]. *)
Lemma getRemainingTimeToPass_NaN_witness :
  getRemainingTimeToPass 1000 0 1 0.9 = nan.
Proof.
  apply (getRemainingTimeToPass_NaN 1000 0 1 0.9). reflexivity.
Defined.

(** Rounding can bring the argument of the logarithm to zero: with
    [alpha = 0.9] and [amount = 9] the ceiling [9 / (1 - 0.9)] is
    [90.00000000000001]; for the next double but one,
    [threshold = 90.00000000000003], the sum [(alpha - 1) * threshold + amount]
    rounds to [0], its logarithm is [-Infinity], and the result is [Infinity]
    for every [Math.log] whose value at [0.9] is finite and negative. *)
Lemma getRemainingTimeToPass_rounding `{JSMath} :
  (Math_log 0.9 <? 0)%float = true -> is_finite (Math_log 0.9) = true ->
  getRemainingTimeToPass 90.00000000000003 0 9 0.9 = infinity.
Proof.
  intros Hneg Hfin. unfold getRemainingTimeToPass.
  change (((0.9 - 1) * 90.00000000000003 + 9) / ((0.9 - 1) * 0 + 9))%float with 0%float.
  rewrite (log_zero 0%float eq_refl).
  apply IEEE.eq_of_spec. rewrite FloatAxioms.div_spec.
  rewrite FloatAxioms.ltb_spec in Hneg. unfold SFltb in Hneg.
  change (Prim2SF 0) with (S754_zero false) in Hneg.
  destruct (IEEE.is_finite_spec _ Hfin) as [[s Hl] | (s & m & e & Hl)];
    rewrite Hl in *; cbn in Hneg |- *; [discriminate|].
  now destruct s.
Qed.

Lemma getRemainingTimeToPass_rounding_counterexample :
  ((0 <? 0.9) = true /\ (0.9 <? 1) = true
   /\ (9 / (1 - 0.9) <? 90.00000000000003) = true
   /\ (0 <? 9 / (1 - 0.9)) = true
   /\ getRemainingTimeToPass 90.00000000000003 0 9 0.9 = infinity)%float.
Proof. repeat split. Qed.

(** In exact arithmetic: with [0 < alpha < 1], a ceiling below the threshold
    and a conviction below the ceiling, the argument of the logarithm is
    negative. *)
Lemma log_argument_negative_exact (threshold conviction amount alpha : Q) :
  (0 < alpha -> alpha < 1 ->
   amount / (1 - alpha) < threshold -> conviction < amount / (1 - alpha) ->
   ((alpha - 1) * threshold + amount) / ((alpha - 1) * conviction + amount) < 0)%Q.
Proof.
  intros Ha0 Ha1 Hceiling Hbelow.
  assert (0 < 1 - alpha)%Q as Hd by lra.
  assert (amount < threshold * (1 - alpha))%Q as Hnum.
  { destruct (Qlt_le_dec amount (threshold * (1 - alpha))) as [|Hle]; [done|].
    apply Qle_shift_div_l in Hle; [lra | done]. }
  assert (conviction * (1 - alpha) < amount)%Q as Hden.
  { destruct (Qlt_le_dec (conviction * (1 - alpha)) amount) as [|Hle]; [done|].
    apply Qle_shift_div_r in Hle; [lra | done]. }
  apply Qlt_shift_div_r; lra.
Qed.

(** C4: a threshold that the conviction can never reach and for which the
    code does not return NaN.  The doubles [threshold = 90.00000000000003],
    [conviction = 0], [amount = 9] and [alpha = 0.9] have, as exact numbers,
    [0 < alpha < 1], the ceiling [amount / (1 - alpha)] below the threshold
    and the conviction below the ceiling, so that the exact argument of the
    logarithm is negative.  In double precision the argument is [0], and the
    result is [Infinity]: for every [Math.log] whose value at [0.9] is finite
    and negative, and for the reference one. *)
Theorem getRemainingTimeToPass_misses_NaN :
  (0 < exact_value 0.9 /\ exact_value 0.9 < 1
   /\ getMaxConviction (exact_value 9) (exact_value 0.9) < exact_value 90.00000000000003
   /\ exact_value 0 < getMaxConviction (exact_value 9) (exact_value 0.9)
   /\ ((exact_value 0.9 - 1) * exact_value 90.00000000000003 + exact_value 9)
      / ((exact_value 0.9 - 1) * exact_value 0 + exact_value 9) < 0)%Q
  /\ (forall M : JSMath,
        (Math_log 0.9 <? 0)%float = true -> is_finite (Math_log 0.9) = true ->
        getRemainingTimeToPass 90.00000000000003 0 9 0.9 = infinity)
  /\ getRemainingTimeToPass 90.00000000000003 0 9 0.9 = infinity.
Proof.
  split; [|split].
  - repeat split; vm_compute; reflexivity.
  - intros M. apply getRemainingTimeToPass_rounding.
  - reflexivity.
Qed.

(** ** The threshold *)

Section Threshold.
Context `{JSMath}.
Open Scope float_scope.

(** C5, on doubles: the threshold is the formula when the share is below
    [beta] and [Infinity] otherwise; so a share of [beta] or more gives
    [Infinity], and [Infinity] comes from such a share, from a comparison with
    NaN, or from the formula itself. *)
Theorem calculateThreshold_cases (requested funds supply alpha beta rho : float) :
  let share := requested / funds in
  let formula := (rho * supply) / (1 - alpha) / Math_pow (beta - share) 2 in
  ((beta <=? share) = true ->
   calculateThreshold requested funds supply alpha beta rho = infinity)
  /\ ((share <? beta) = true ->
      calculateThreshold requested funds supply alpha beta rho = formula)
  /\ (calculateThreshold requested funds supply alpha beta rho = infinity ->
      (beta <=? share) = true \/ is_nan share = true \/ is_nan beta = true
      \/ formula = infinity).
Proof.
  intros share formula. unfold calculateThreshold. fold share. repeat split.
  - intros Hge. now rewrite (IEEE.leb_not_ltb share beta Hge).
  - now intros ->.
  - destruct (share <? beta) eqn:Hlt.
    + intros Hinf. now right; right; right.
    + intros _. destruct (IEEE.ltb_false_cases share beta Hlt) as [?|[?|?]]; auto.
Qed.

End Threshold.

(** The example of the specification: [requested = 50], [funds = 100],
    [beta = 0.4]. *)
Lemma calculateThreshold_cases_witness :
  calculateThreshold 50 100 1000 0.9 0.4 0.5 = infinity.
Proof.
  apply (proj1 (calculateThreshold_cases 50 100 1000 0.9 0.4 0.5)). reflexivity.
Defined.

(** [Infinity] without a share of [beta] or more: with [alpha = 1] the share
    [0.1] is below [beta = 0.2] and the formula divides by zero; with
    [funds = 0] and [requested = 0] the share is NaN and compares with
    nothing. *)
Lemma calculateThreshold_infinity_counterexample :
  ((10 / 100 <? 0.2) = true /\ (0.2 <=? 10 / 100) = false
   /\ calculateThreshold 10 100 1000 1 0.2 0.5 = infinity
   /\ (0.2 <=? 0 / 0) = false
   /\ calculateThreshold 0 0 1000 0.9 0.2 0.5 = infinity)%float.
Proof. repeat split. Qed.

(** ** The minimum stake and the ceiling *)

(** C8, over the rationals: for [alpha <> 1] the minimum stake is
    [threshold * (1 - alpha)], and the ceiling of that stake is the threshold
    again. *)
Theorem stake_and_ceiling_inverse (threshold alpha : Q) :
  ~ alpha == 1 ->
  getMinNeededStake threshold alpha == threshold * (1 - alpha)
  /\ getMaxConviction (getMinNeededStake threshold alpha) alpha == threshold.
Proof.
  intros Ha. unfold getMinNeededStake, getMaxConviction.
  cbn [add sub mul div opp one Q_arith].
  assert (~ 1 - alpha == 0) as Hd by (intros Hz; apply Ha; rewrite <- (Qplus_0_l alpha), <- Hz; ring).
  split; [ring | field; exact Hd].
Qed.

Lemma stake_and_ceiling_inverse_witness :
  (getMinNeededStake 1000 (9 # 10) == 1000 * (1 - (9 # 10))
   /\ getMaxConviction (getMinNeededStake 1000 (9 # 10)) (9 # 10) == 1000)%Q.
Proof.
  apply (stake_and_ceiling_inverse 1000 (9 # 10)). discriminate.
Defined.

(** On doubles the two identities hold up to rounding only: for
    [threshold = 1000] and [alpha = 0.9] the stake is [100] while
    [1000 * (1 - 0.9)] is [99.99999999999997], and the ceiling of the stake is
    [1000.0000000000002]. *)
Lemma stake_and_ceiling_rounding_counterexample :
  (getMinNeededStake 1000 0.9 = 100
   /\ 1000 * (1 - 0.9) = 99.99999999999997
   /\ (getMinNeededStake 1000 0.9 =? 1000 * (1 - 0.9)) = false
   /\ getMaxConviction (getMinNeededStake 1000 0.9) 0.9 = 1000.0000000000002
   /\ (getMaxConviction (getMinNeededStake 1000 0.9) 0.9 =? 1000) = false)%float.
Proof. repeat split. Qed.

(** * Further properties of the module *)

(** ** The decay formula in exact arithmetic

    Over the rationals [calculateConviction] is the closed form of the
    recurrence [y(t+1) = alpha * y(t) + x], whose fixed point is the ceiling
    [getMaxConviction]. *)

Section ExactConviction.
Open Scope Q_scope.

Lemma Qpower_succ_nonneg (a : Q) (t : Z) : (0 <= t)%Z -> Qpower a (t + 1) == Qpower a t * a.
Proof.
  intros Ht. destruct (Z.eq_dec t 0%Z) as [->|Hne].
  - simpl. ring.
  - rewrite Qpower_plus' by lia. simpl. reflexivity.
Qed.

Lemma Qpower_add_nonneg (a : Q) (s t : Z) :
  (0 <= s)%Z -> (0 <= t)%Z -> Qpower a (s + t) == Qpower a s * Qpower a t.
Proof.
  intros Hs Ht. destruct (Z.eq_dec (s + t)%Z 0%Z) as [E|Hne].
  - assert (s = 0%Z) as -> by lia. assert (t = 0%Z) as -> by lia. simpl. ring.
  - now apply Qpower_plus'.
Qed.

Lemma Qpower_unit_interval (a : Q) (t : Z) :
  0 <= a -> a <= 1 -> (0 <= t)%Z -> 0 <= Qpower a t <= 1.
Proof.
  intros Ha0 Ha1 Ht. split; [now apply Qpower_0_le|].
  revert t Ht. apply natlike_ind; [discriminate|].
  intros t Ht IH. unfold Z.succ. rewrite Qpower_succ_nonneg by done.
  pose proof (Qpower_0_le a t Ha0).
  apply Qle_trans with (1 * 1); [|discriminate].
  apply Qmult_le_compat_nonneg; split; assumption.
Qed.

Lemma one_minus_nonzero (alpha : Q) : ~ alpha == 1 -> ~ 1 - alpha == 0.
Proof. intros Ha Hz. apply Ha. rewrite <- (Qplus_0_l alpha), <- Hz. ring. Qed.

(** X1: one more block multiplies the conviction by [alpha] and adds the
    stake. *)
Theorem calculateConviction_step (t : Z) (y0 x alpha : Q) :
  (0 <= t)%Z -> ~ alpha == 1 ->
  calculateConviction (t + 1) y0 x alpha == alpha * calculateConviction t y0 x alpha + x.
Proof.
  intros Ht Ha. unfold calculateConviction. cbn [add sub mul div pow one Q_arith].
  rewrite Qpower_succ_nonneg by done.
  field. now apply one_minus_nonzero.
Qed.

(** X2: decaying for [s] blocks and then for [t] more, from the value
    reached, is decaying for [s + t] blocks. *)
Theorem calculateConviction_compose (s t : Z) (y0 x alpha : Q) :
  (0 <= s)%Z -> (0 <= t)%Z -> ~ alpha == 1 ->
  calculateConviction (s + t) y0 x alpha
  == calculateConviction t (calculateConviction s y0 x alpha) x alpha.
Proof.
  intros Hs Ht Ha. unfold calculateConviction. cbn [add sub mul div pow one Q_arith].
  rewrite Qpower_add_nonneg by done.
  field. now apply one_minus_nonzero.
Qed.

(** X3: a conviction at the ceiling of its stake stays there. *)
Theorem calculateConviction_ceiling (t : Z) (x alpha : Q) :
  ~ alpha == 1 ->
  calculateConviction t (getMaxConviction x alpha) x alpha == getMaxConviction x alpha.
Proof.
  intros Ha. unfold calculateConviction, getMaxConviction.
  cbn [add sub mul div pow one Q_arith].
  field. now apply one_minus_nonzero.
Qed.

(** The distance to the ceiling shrinks by [alpha] per block. *)
Lemma calculateConviction_gap (t : Z) (y0 x alpha : Q) :
  ~ alpha == 1 ->
  getMaxConviction x alpha - calculateConviction t y0 x alpha
  == Qpower alpha t * (getMaxConviction x alpha - y0).
Proof.
  intros Ha. unfold calculateConviction, getMaxConviction.
  cbn [add sub mul div pow one Q_arith].
  field. now apply one_minus_nonzero.
Qed.

Lemma shrinking_gap (p q g : Q) :
  0 <= q -> q <= p -> p <= 1 -> 0 <= g -> 0 <= q * g /\ q * g <= p * g /\ p * g <= g.
Proof.
  intros Hq Hqp Hp Hg. repeat split.
  - now apply Qmult_le_0_compat.
  - now apply Qmult_le_compat_r.
  - apply Qle_trans with (1 * g); [now apply Qmult_le_compat_r | lra].
Qed.

(** X4: for [0 < alpha < 1] the conviction moves towards the ceiling of the
    stake, monotonically and without crossing it: upwards from below, downwards
    from above. *)
Theorem calculateConviction_towards_ceiling (s t : Z) (y0 x alpha : Q) :
  0 < alpha -> alpha < 1 -> (0 <= s <= t)%Z ->
  (y0 <= getMaxConviction x alpha ->
   y0 <= calculateConviction s y0 x alpha
   /\ calculateConviction s y0 x alpha <= calculateConviction t y0 x alpha
   /\ calculateConviction t y0 x alpha <= getMaxConviction x alpha)
  /\ (getMaxConviction x alpha <= y0 ->
      getMaxConviction x alpha <= calculateConviction t y0 x alpha
      /\ calculateConviction t y0 x alpha <= calculateConviction s y0 x alpha
      /\ calculateConviction s y0 x alpha <= y0).
Proof.
  intros Ha0 Ha1 Hst.
  assert (~ alpha == 1) as Ha by (intros E; rewrite E in Ha1; discriminate).
  pose proof (calculateConviction_gap s y0 x alpha Ha) as Gs.
  pose proof (calculateConviction_gap t y0 x alpha Ha) as Gt.
  assert (0 <= alpha) as Ha0' by lra.
  assert (alpha <= 1) as Ha1' by lra.
  destruct (Qpower_unit_interval alpha s Ha0' Ha1' ltac:(lia)) as [Ps0 Ps1].
  destruct (Qpower_unit_interval alpha (t - s) Ha0' Ha1' ltac:(lia)) as [Pd0 Pd1].
  destruct (Qpower_unit_interval alpha t Ha0' Ha1' ltac:(lia)) as [Pt0 _].
  assert (Qpower alpha t <= Qpower alpha s) as Pts.
  { replace t with (s + (t - s))%Z at 1 by lia. rewrite Qpower_add_nonneg by lia.
    apply Qle_trans with (Qpower alpha s * 1); [|lra].
    rewrite !(Qmult_comm (Qpower alpha s)). now apply Qmult_le_compat_r. }
  split; intros Hy.
  - assert (0 <= getMaxConviction x alpha - y0) as Hg by lra.
    destruct (shrinking_gap _ _ _ Pt0 Pts Ps1 Hg) as (G1 & G2 & G3).
    repeat split; lra.
  - assert (0 <= y0 - getMaxConviction x alpha) as Hg by lra.
    destruct (shrinking_gap _ _ _ Pt0 Pts Ps1 Hg) as (G1 & G2 & G3).
    repeat split; lra.
Qed.

(** X5: the formula is additive in the pair (conviction, stake): the
    conviction of the sum of two positions is the sum of their convictions. *)
Theorem calculateConviction_additive (t : Z) (y0 y0' x x' alpha : Q) :
  ~ alpha == 1 ->
  calculateConviction t (y0 + y0') (x + x') alpha
  == calculateConviction t y0 x alpha + calculateConviction t y0' x' alpha.
Proof.
  intros Ha. unfold calculateConviction. cbn [add sub mul div pow one Q_arith].
  field. now apply one_minus_nonzero.
Qed.

End ExactConviction.

Lemma calculateConviction_step_witness :
  (calculateConviction (3 + 1) 0 100 (9 # 10)
   == (9 # 10) * calculateConviction 3 0 100 (9 # 10) + 100)%Q.
Proof. apply (calculateConviction_step 3 0 100 (9 # 10)); [lia | discriminate]. Defined.

Lemma calculateConviction_compose_witness :
  (calculateConviction (3 + 4) 0 100 (9 # 10)
   == calculateConviction 4 (calculateConviction 3 0 100 (9 # 10)) 100 (9 # 10))%Q.
Proof.
  apply (calculateConviction_compose 3 4 0 100 (9 # 10)); [lia | lia | discriminate].
Defined.

Lemma calculateConviction_ceiling_witness :
  (calculateConviction 7 (getMaxConviction 100 (9 # 10)) 100 (9 # 10)
   == getMaxConviction 100 (9 # 10))%Q.
Proof. apply (calculateConviction_ceiling 7 100 (9 # 10)). discriminate. Defined.

Lemma calculateConviction_additive_witness :
  (calculateConviction 7 (10 + 20) (100 + 300) (9 # 10)
   == calculateConviction 7 10 100 (9 # 10) + calculateConviction 7 20 300 (9 # 10))%Q.
Proof. apply (calculateConviction_additive 7 10 20 100 300 (9 # 10)). discriminate. Defined.

Lemma calculateConviction_towards_ceiling_witness :
  (0 <= calculateConviction 1 0 100 (9 # 10)
   /\ calculateConviction 1 0 100 (9 # 10) <= calculateConviction 5 0 100 (9 # 10)
   /\ calculateConviction 5 0 100 (9 # 10) <= getMaxConviction 100 (9 # 10))%Q.
Proof.
  apply (calculateConviction_towards_ceiling 1 5 0 100 (9 # 10));
    [reflexivity | reflexivity | lia | discriminate].
Defined.

(** ** The time to pass over the real numbers *)

Module RealProofs.
Import Reals Lra.
Open Scope R_scope.

Lemma calculateConviction_real (t : Z) (y0 x a : R) :
  calculateConviction t y0 x a = y0 * powerRZ a t + (x * (1 - powerRZ a t)) / (1 - a).
Proof. reflexivity. Qed.

(** The argument of the logarithm, at the conviction reached after [t]
    blocks, is [alpha ^ t]. *)
Lemma log_argument_real (t : Z) (y0 x a : R) :
  a <> 1 -> (a - 1) * y0 + x <> 0 ->
  ((a - 1) * calculateConviction t y0 x a + x) / ((a - 1) * y0 + x) = powerRZ a t.
Proof.
  intros Ha Hd. rewrite calculateConviction_real. field. split; [lra | exact Hd].
Qed.

(** X6: [getRemainingTimeToPass] inverts [calculateConviction]: the time to
    reach the conviction that [t] blocks lead to is [t]. *)
Theorem getRemainingTimeToPass_inverts (t : Z) (y0 x alpha : R) :
  0 < alpha -> alpha <> 1 -> (alpha - 1) * y0 + x <> 0 ->
  Exact.getRemainingTimeToPass (calculateConviction t y0 x alpha) y0 x alpha = IZR t.
Proof.
  intros Ha0 Ha1 Hd. unfold Exact.getRemainingTimeToPass. cbv zeta.
  rewrite (log_argument_real t y0 x alpha Ha1 Hd).
  rewrite powerRZ_Rpower, ln_Rpower by exact Ha0.
  field. now apply ln_neq_0.
Qed.

Lemma lt_div_r (a b c : R) : 0 < c -> (a < b / c <-> a * c < b).
Proof.
  intros Hc. assert (b = b / c * c) as E by (field; lra).
  generalize dependent (b / c). intros q ->. split; intros; nra.
Qed.

Lemma lt_div_l (a b c : R) : 0 < c -> (b / c < a <-> b < a * c).
Proof.
  intros Hc. assert (b = b / c * c) as E by (field; lra).
  generalize dependent (b / c). intros q ->. split; intros; nra.
Qed.

Lemma ln_sign (r : R) : 0 < r -> (ln r < 0 <-> r < 1) /\ (0 < ln r <-> 1 < r).
Proof.
  intros Hr. rewrite <- ln_1. repeat split; intros Hl.
  - apply ln_lt_inv; [done | lra | done].
  - now apply ln_increasing.
  - apply ln_lt_inv; [lra | done | done].
  - apply ln_increasing; [lra | done].
Qed.

(** X7: with [0 < alpha < 1] and both the conviction and the threshold below
    the ceiling of the stake, the remaining time is positive exactly when the
    conviction is below the threshold, and negative exactly when it is
    above. *)
Theorem getRemainingTimeToPass_sign (threshold conviction amount alpha : R) :
  0 < alpha -> alpha < 1 ->
  conviction < getMaxConviction amount alpha ->
  threshold < getMaxConviction amount alpha ->
  (0 < Exact.getRemainingTimeToPass threshold conviction amount alpha
   <-> conviction < threshold)
  /\ (Exact.getRemainingTimeToPass threshold conviction amount alpha < 0
      <-> threshold < conviction).
Proof.
  intros Ha0 Ha1. unfold getMaxConviction. cbn -[Rdiv Rminus].
  intros Hc Ht.
  apply lt_div_r in Hc; [|lra]. apply lt_div_r in Ht; [|lra].
  unfold Exact.getRemainingTimeToPass. cbv zeta.
  set (N := (alpha - 1) * threshold + amount).
  set (D := (alpha - 1) * conviction + amount).
  assert (0 < N) as HN by (unfold N; lra).
  assert (0 < D) as HD by (unfold D; lra).
  assert (0 < N / D) as Hr by now apply Rdiv_lt_0_compat.
  assert (ln alpha < 0) as Hl by (apply (ln_sign alpha Ha0); lra).
  destruct (ln_sign (N / D) Hr) as [Hneg Hpos].
  assert (N / D < 1 <-> conviction < threshold) as H1.
  { rewrite lt_div_l by done. unfold N, D. split; intros; nra. }
  assert (1 < N / D <-> threshold < conviction) as H2.
  { rewrite lt_div_r by done. unfold N, D. split; intros; nra. }
  rewrite <- H1, <- H2, <- Hneg, <- Hpos.
  pose proof (Rinv_neg _ Hl) as Hi. unfold Rdiv at 1 3.
  split; split; intros Hq; nra.
Qed.

Lemma getRemainingTimeToPass_inverts_witness :
  Exact.getRemainingTimeToPass (calculateConviction 10 0 100 (/ 2)) 0 100 (/ 2) = IZR 10.
Proof. apply (getRemainingTimeToPass_inverts 10 0 100 (/ 2)); lra. Defined.

Lemma getRemainingTimeToPass_sign_witness :
  (0 < Exact.getRemainingTimeToPass 150 0 100 (/ 2) <-> 0 < 150)
  /\ (Exact.getRemainingTimeToPass 150 0 100 (/ 2) < 0 <-> 150 < 0).
Proof.
  apply (getRemainingTimeToPass_sign 150 0 100 (/ 2)); try lra.
  - unfold getMaxConviction. cbn -[Rdiv Rminus]. apply lt_div_r; lra.
  - unfold getMaxConviction. cbn -[Rdiv Rminus]. apply lt_div_r; lra.
Defined.

End RealProofs.

(** ** No decay: [alpha = 1] *)

Section NoDecay.
Context `{JSMath}.
Open Scope float_scope.

(** X8: with [alpha = 1] the closed formula divides zero by zero: whenever
    [1 ** t] is 1, the conviction is NaN, whatever the checkpoint and the
    stake. *)
Theorem calculateConviction_alpha_one (t : Z) (y0 x : float) :
  Math_pow 1 t = 1 -> calculateConviction t y0 x 1 = nan.
Proof.
  intros Hp. unfold calculateConviction. cbn [add sub mul div pow one float_arith].
  rewrite Hp. change (1 - 1) with 0.
  rewrite (IEEE.div_zero_zero (x * 0) 0 false (IEEE.mul_zero_r_spec x) eq_refl).
  apply IEEE.add_nan_r.
Qed.

(** X9: with [alpha = 1] the time to pass is never a finite number: its
    denominator [Math.log(1)] is zero. *)
Theorem getRemainingTimeToPass_alpha_one (threshold conviction amount : float) :
  is_finite (getRemainingTimeToPass threshold conviction amount 1) = false.
Proof.
  unfold getRemainingTimeToPass. rewrite log_one.
  apply IEEE.not_finite_of_spec, (IEEE.div_zero_r_spec _ 0 false eq_refl).
Qed.

(** X10: with [alpha = 1] the ceiling of a positive stake is [Infinity]
    (of a negative one [-Infinity], of zero NaN), and the stake needed for
    any finite threshold is exactly [0]. *)
Theorem no_decay_stake_and_ceiling (x : float) :
  ((0 <? x) = true -> getMaxConviction x 1 = infinity)
  /\ ((x <? 0) = true -> getMaxConviction x 1 = neg_infinity)
  /\ ((x =? 0) = true -> getMaxConviction x 1 = nan)
  /\ (is_finite x = true -> getMinNeededStake x 1 = 0).
Proof.
  split; [|split; [|split]].
  4: { intros Hx. unfold getMinNeededStake. cbn [add mul opp float_arith].
       now apply IEEE.opp_one_mul_add. }
  all: unfold getMaxConviction; cbn [sub div one float_arith]; change (1 - 1) with 0.
  all: rewrite ?FloatAxioms.ltb_spec, ?FloatAxioms.eqb_spec; unfold SFltb, SFeqb.
  all: change (Prim2SF 0) with (S754_zero false).
  all: intros Hx; apply IEEE.eq_of_spec; rewrite FloatAxioms.div_spec.
  all: change (Prim2SF 0) with (S754_zero false).
  all: destruct (Prim2SF x) as [s|s| |s m e]; cbn in *; try discriminate; try reflexivity.
  all: destruct s; try discriminate; reflexivity.
Qed.

End NoDecay.

Lemma calculateConviction_alpha_one_witness : (calculateConviction 5 7 100 1 = nan)%float.
Proof. apply (calculateConviction_alpha_one 5 7 100). reflexivity. Defined.

(** ** Edge cases of the time to pass and of the threshold *)

Section FloatEdges.
Context `{JSMath}.
Open Scope float_scope.

(** X11: a conviction that equals the threshold needs no time: the
    argument of the logarithm is exactly 1. *)
Theorem getRemainingTimeToPass_at_threshold (conviction amount alpha : float) :
  is_finite ((alpha - 1) * conviction + amount) = true ->
  ((alpha - 1) * conviction + amount =? 0) = false ->
  is_nan (Math_log alpha) = false -> (Math_log alpha =? 0) = false ->
  (getRemainingTimeToPass conviction conviction amount alpha =? 0) = true.
Proof.
  intros Hf Hz Hn Hl. unfold getRemainingTimeToPass.
  rewrite (IEEE.div_diag _ Hf Hz), log_one.
  destruct (IEEE.zero_div_spec _ Hn Hl) as [s Hq].
  now apply (IEEE.eqb_zero_of_spec _ s).
Qed.

(** X12: a share or a [beta] that is NaN (as for [0 / 0] funds) compares
    below nothing: the threshold is [Infinity], never NaN. *)
Theorem calculateThreshold_unordered (requested funds supply alpha beta rho : float) :
  is_nan (requested / funds) = true \/ is_nan beta = true ->
  calculateThreshold requested funds supply alpha beta rho = infinity.
Proof.
  intros Hn. unfold calculateThreshold.
  assert ((requested / funds <? beta) = false) as ->; [|done].
  rewrite FloatAxioms.ltb_spec.
  destruct Hn as [Hn|Hn]; apply IEEE.is_nan_true_spec in Hn; rewrite Hn; [done|].
  now destruct (Prim2SF (requested / funds)).
Qed.

End FloatEdges.

Lemma getRemainingTimeToPass_at_threshold_witness :
  (getRemainingTimeToPass 50 50 10 0.9 =? 0)%float = true.
Proof. apply (getRemainingTimeToPass_at_threshold 50 10 0.9); reflexivity. Defined.

Lemma calculateThreshold_unordered_witness :
  calculateThreshold 0 0 1000 0.9 0.2 0.5 = infinity.
Proof. apply (calculateThreshold_unordered 0 0 1000 0.9 0.2 0.5). left. reflexivity. Defined.

(** ** More on the point-in-time queries *)

Section MoreQueries.
Context `{JSMath}.
Implicit Types (h : heap) (stakes : loc) (ss : list Stake).
Open Scope float_scope.

Lemma zero_time_identity (y0 x alpha : float) :
  (0 <? alpha) = true -> (alpha <? 1) = true ->
  is_finite x = true -> is_nan y0 = false ->
  (calculateConviction 0 y0 x alpha =? y0) = true.
Proof.
  intros Ha0 Ha1 Hx Hy0. unfold calculateConviction.
  cbn [add sub mul div pow one float_arith].
  rewrite pow_zero, IEEE.mul_one_r. change (1 - 1) with 0.
  destruct (IEEE.mul_zero_r_finite x Hx) as [s Hz].
  destruct (IEEE.div_zero_l _ (1 - alpha) s false Hz (IEEE.sub_one_nonzero alpha Ha0 Ha1))
    as [s' Hq].
  exact (IEEE.add_zero_r_eqb y0 _ s' Hy0 Hq).
Qed.

(** X13: read at the block of the last event, the current conviction is the
    conviction that event records (for [0 < alpha < 1], a finite stake and a
    recorded conviction that is a number other than NaN). *)
Theorem getCurrentConviction_at_checkpoint h stakes ss (s : Stake) (c x alpha : float) :
  h !! stakes = Some (StakeArray (ss ++ [s])) ->
  s.(conviction) = number c -> s.(totalTokensStaked) = number x ->
  (0 <? alpha) = true -> (alpha <? 1) = true ->
  is_finite x = true -> is_nan c = false ->
  wp (getCurrentConviction stakes s.(time) alpha) h (fun r _ => (r =? c) = true).
Proof.
  intros Hs Hc Hx Ha0 Ha1 Hfin Hnan.
  apply (getCurrentConviction_spec stakes (ss ++ [s])); [done|]. intros h' _.
  rewrite current_conviction_last, Hc, Hx, Z.sub_diag. cbn [ToNumber].
  now apply zero_time_identity.
Qed.

(** X14: without events the trend is [0 / maxConviction]: zero for every
    [maxConviction] that is neither zero nor NaN, and NaN when
    [maxConviction] is zero. *)
Theorem getConvictionTrend_no_stakes h stakes
    (maxConviction : float) (time : Z) (alpha : float) (timeUnit : Z) :
  h !! stakes = Some (StakeArray []) ->
  wp (getConvictionTrend stakes maxConviction time alpha timeUnit) h
    (fun r _ =>
       r = 0 / maxConviction
       /\ (is_nan maxConviction = false -> (maxConviction =? 0) = false -> (r =? 0) = true)
       /\ ((maxConviction =? 0) = true -> r = nan)).
Proof.
  intros Hs. unfold getConvictionTrend.
  apply wp_bind, (getCurrentConviction_spec stakes []); [done|]. intros h1 H1.
  apply wp_bind, (getCurrentConviction_spec stakes []); [now apply (lookup_weaken h h1)|].
  intros h2 H2. apply wp_ret. cbn [current_conviction last]. change (0 - 0) with 0.
  repeat split.
  - intros Hn Hz. destruct (IEEE.zero_div_spec maxConviction Hn Hz) as [s Hq].
    now apply (IEEE.eqb_zero_of_spec _ s).
  - intros Hz. destruct (IEEE.spec_of_eqb_zero _ Hz) as [s Hm].
    now apply (IEEE.div_zero_zero 0 maxConviction s); [left; exists false|].
Qed.

End MoreQueries.

Lemma getCurrentConviction_at_checkpoint_witness :
  wp (getCurrentConviction 1 0 0.9) (heap_of [genesis_stake])
    (fun r _ => (r =? 0)%float = true).
Proof.
  apply (getCurrentConviction_at_checkpoint (heap_of [genesis_stake]) 1 [] genesis_stake
           0 100 0.9); reflexivity.
Defined.

Lemma getConvictionTrend_no_stakes_witness :
  wp (getConvictionTrend 1 1000 10 0.9 5) (heap_of [])
    (fun r _ =>
       r = (0 / 1000)%float
       /\ (is_nan 1000 = false -> (1000 =? 0)%float = false -> (r =? 0)%float = true)
       /\ ((1000 =? 0)%float = true -> r = nan)).
Proof. apply (getConvictionTrend_no_stakes (heap_of []) 1 1000 10 0.9 5). reflexivity. Defined.

(** ** The events of one entity *)

Section ByEntity.
Context `{JSMath}.
Implicit Types (h : heap) (stakes : loc) (ss : list Stake).

Lemma filter_all {A} (p : A -> bool) (l : list A) :
  (forall a, a ∈ l -> p a = true) -> List.filter p l = l.
Proof.
  induction l as [|a l IH]; intros Hall; [done|]. cbn [List.filter].
  rewrite (Hall a) by now left. f_equal. apply IH. intros b Hb. apply Hall. now right.
Qed.

Lemma filter_none {A} (p : A -> bool) (l : list A) :
  (forall a, a ∈ l -> p a = false) -> List.filter p l = [].
Proof.
  induction l as [|a l IH]; intros Hall; [done|]. cbn [List.filter].
  rewrite (Hall a) by now left. apply IH. intros b Hb. apply Hall. now right.
Qed.

Lemma entity_stakes_cons ss (who : string) (s0 : Stake) :
  entity_stakes (s0 :: ss) who =
  if bool_decide (Some who = s0.(entity))
  then mkStake s0.(time) None undefined s0.(tokensStaked) s0.(conviction)
       :: entity_stakes ss who
  else entity_stakes ss who.
Proof.
  destruct s0 as [t e ts tts c]. unfold entity_stakes. simpl.
  now destruct (bool_decide (Some who = e)).
Qed.

Lemma entity_stakes_elem ss (who : string) (s : Stake) :
  s ∈ entity_stakes ss who -> exists s0, s0 ∈ ss /\ relabelled who s0 s.
Proof.
  induction ss as [|s0 ss IH]; [intros Hs; inversion Hs|].
  rewrite entity_stakes_cons. destruct (bool_decide_reflect (Some who = entity s0)) as [He|He].
  - intros [->|Hs]%elem_of_cons.
    + exists s0. split; [now left | now split].
    + destruct (IH Hs) as (s1 & H1 & Hr). exists s1. split; [now right | done].
  - intros Hs. destruct (IH Hs) as (s1 & H1 & Hr). exists s1. split; [now right | done].
Qed.

Lemma entity_stakes_length ss (who : string) :
  (length (entity_stakes ss who) <= length ss)%nat.
Proof.
  induction ss as [|s0 ss IH]; [done|]. rewrite entity_stakes_cons.
  destruct (bool_decide (Some who = entity s0)); simpl; lia.
Qed.

Lemma entity_stakes_chronological ss (who : string) :
  chronological ss -> chronological (entity_stakes ss who).
Proof.
  unfold chronological. induction 1 as [|s0 ss Hsorted IH Hall]; [constructor|].
  rewrite entity_stakes_cons. destruct (bool_decide (Some who = entity s0)); [|done].
  constructor; [done|]. apply Forall_forall. intros s Hs.
  apply entity_stakes_elem in Hs as (s1 & H1 & _ & ->). cbn [time].
  rewrite Forall_forall in Hall. now apply Hall.
Qed.

Lemma entity_stakes_twice ss (who other : string) :
  entity_stakes (entity_stakes ss who) other = [].
Proof.
  apply entity_stakes_absent. intros s Hs.
  apply entity_stakes_elem in Hs as (s0 & _ & _ & ->). discriminate.
Qed.

(** X15: the list [stakesByEntity] builds from a chronological log is
    chronological and no longer than the log, and each of its elements is an
    event of the entity with its own stake as [totalTokensStaked], the same
    [time] and [conviction], and neither [entity] nor [tokensStaked]. *)
Theorem stakesByEntity_events h stakes ss (who : string) :
  h !! stakes = Some (StakeArray ss) -> chronological ss ->
  wp (stakesByEntity stakes who) h
    (fun r h' =>
       exists es,
         h' !! r = Some (StakeArray es)
         /\ chronological es
         /\ (length es <= length ss)%nat
         /\ forall s, s ∈ es -> exists s0, s0 ∈ ss /\ relabelled who s0 s).
Proof.
  intros Hs Hchron. apply (stakesByEntity_spec stakes ss); [done|].
  intros r h' _ _ Hr. exists (entity_stakes ss who). split; [done|].
  split; [now apply entity_stakes_chronological|].
  split; [apply entity_stakes_length|]. apply entity_stakes_elem.
Qed.

(** X16: the objects [stakesByEntity] builds carry no [entity], so they
    match no entity: filtering its result again gives the empty list, and
    [getCurrentConvictionByEntity] on its result is [0], whatever the log. *)
Theorem stakesByEntity_twice h stakes ss (who other : string) currentTime alpha :
  h !! stakes = Some (StakeArray ss) ->
  wp (let! mine := stakesByEntity stakes who in stakesByEntity mine other) h
    (fun r h' => h' !! r = Some (StakeArray []))
  /\ wp (let! mine := stakesByEntity stakes who in
         getCurrentConvictionByEntity mine other currentTime alpha) h
       (fun r _ => r = 0%float).
Proof.
  intros Hs. split.
  - apply wp_bind, (stakesByEntity_spec stakes ss); [done|]. intros mine h1 _ _ Hm.
    apply (stakesByEntity_spec mine _ other h1 _ Hm). intros r h2 _ _ Hr.
    now rewrite entity_stakes_twice in Hr.
  - apply wp_bind, (stakesByEntity_spec stakes ss); [done|]. intros mine h1 _ _ Hm.
    apply (getCurrentConvictionByEntity_spec mine _ other _ _ h1 _ Hm). intros h2 _.
    unfold current_conviction_by_entity. now rewrite entity_stakes_twice.
Qed.

Lemma replay_entity_stakes ss (who : string) alpha :
  replay (entity_stakes ss who) alpha = replay_events alpha (own_events ss who)
  /\ length (entity_stakes ss who) = length (own_events ss who).
Proof.
  unfold replay, replay_events, own_events.
  generalize (0%float, 0%Z, number 0). intros acc.
  revert acc. induction ss as [|s0 ss IH]; intros acc; [done|].
  rewrite entity_stakes_cons. cbn [List.filter].
  destruct (bool_decide (Some who = entity s0)); [|apply IH].
  cbn [fmap list_fmap foldl length]. destruct acc as [[c t] a]. cbn [time totalTokensStaked].
  destruct (IH (calculateConviction (time s0 - t) c (ToNumber a) alpha, time s0, tokensStaked s0))
    as [-> ->].
  done.
Qed.

(** X17: the current conviction of an entity depends on the log only
    through the times and the [tokensStaked] of the entity's own events:
    neither the events of other entities nor the recorded [conviction] and
    [totalTokensStaked] are read. *)
Theorem getCurrentConvictionByEntity_own_events h (a b : loc) ss ss' (who : string)
    currentTime alpha :
  h !! a = Some (StakeArray ss) -> h !! b = Some (StakeArray ss') ->
  own_events ss who = own_events ss' who ->
  exists v,
    wp (getCurrentConvictionByEntity a who currentTime alpha) h (fun r _ => r = v)
    /\ wp (getCurrentConvictionByEntity b who currentTime alpha) h (fun r _ => r = v).
Proof.
  intros Ha Hb Hev. exists (current_conviction_by_entity ss who currentTime alpha).
  split.
  - now apply (getCurrentConvictionByEntity_spec a ss).
  - apply (getCurrentConvictionByEntity_spec b ss'); [done|]. intros h' _.
    unfold current_conviction_by_entity.
    destruct (replay_entity_stakes ss who alpha) as [-> ->].
    destruct (replay_entity_stakes ss' who alpha) as [-> ->].
    now rewrite Hev.
Qed.

Lemma recorded_replay alpha ss : forall acc s,
  recorded_from alpha acc (ss ++ [s]) ->
  exists c, s.(conviction) = number c
            /\ replay_from alpha acc (ss ++ [s]) = (c, s.(time), s.(totalTokensStaked)).
Proof.
  induction ss as [|s0 ss IH]; intros [[c0 t0] a0] s; cbn [app recorded_from].
  - intros [Hc _]. eexists. split; [exact Hc | reflexivity].
  - intros [_ Hrec]. apply (IH _ s Hrec).
Qed.

Lemma recorded_last alpha ss s :
  recorded alpha (ss ++ [s]) ->
  exists c, s.(conviction) = number c
            /\ replay (ss ++ [s]) alpha = (c, s.(time), s.(totalTokensStaked)).
Proof. apply recorded_replay. Qed.

Lemma own_events_all ss (who : string) :
  (forall s, s ∈ ss -> s.(entity) = Some who /\ s.(tokensStaked) = s.(totalTokensStaked)) ->
  own_events ss who = (fun s => (s.(time), s.(totalTokensStaked))) <$> ss.
Proof.
  intros Hall. unfold own_events. rewrite filter_all.
  - apply list_fmap_ext. intros k s Hs. apply list_elem_of_lookup_2 in Hs.
    now destruct (Hall s Hs) as [_ ->].
  - intros s Hs. destruct (Hall s Hs) as [-> _]. now apply bool_decide_eq_true.
Qed.

Lemma replay_as_events ss alpha :
  replay ss alpha = replay_events alpha ((fun s => (s.(time), s.(totalTokensStaked))) <$> ss).
Proof.
  unfold replay, replay_events. generalize (0%float, 0%Z, number 0). intros acc.
  revert acc. induction ss as [|s ss IH]; intros [[c t] a]; [done|].
  cbn [fmap list_fmap foldl]. apply IH.
Qed.

(** X18: on a log of a single entity, whose events record the conviction
    accrued by the rule of [convictionFromStakes] and the entity's stake as
    both [tokensStaked] and [totalTokensStaked], the conviction of the entity
    is the conviction of the proposal: the replay of
    [getCurrentConvictionByEntity] and the recorded checkpoint of
    [getCurrentConviction] agree. *)
Theorem single_entity_conviction h stakes ss (s : Stake) (who : string) currentTime alpha :
  h !! stakes = Some (StakeArray (ss ++ [s])) ->
  (forall s', s' ∈ ss ++ [s] ->
     s'.(entity) = Some who /\ s'.(tokensStaked) = s'.(totalTokensStaked)) ->
  recorded alpha (ss ++ [s]) ->
  exists v,
    wp (getCurrentConviction stakes currentTime alpha) h (fun r _ => r = v)
    /\ wp (getCurrentConvictionByEntity stakes who currentTime alpha) h (fun r _ => r = v).
Proof.
  intros Hs Hall Hrec. exists (current_conviction (ss ++ [s]) currentTime alpha). split.
  - now apply (getCurrentConviction_spec stakes (ss ++ [s])).
  - apply (getCurrentConvictionByEntity_spec stakes (ss ++ [s])); [done|]. intros h' _.
    unfold current_conviction_by_entity.
    destruct (replay_entity_stakes (ss ++ [s]) who alpha) as [-> ->].
    rewrite (own_events_all _ who Hall), <- replay_as_events.
    rewrite length_fmap, length_app, Nat.add_1_r. cbn [Nat.ltb Nat.leb].
    destruct (recorded_last alpha ss s Hrec) as (c & Hc & Hrep).
    rewrite Hrep, current_conviction_last, Hc. reflexivity.
Qed.

End ByEntity.

Lemma stakesByEntity_events_witness :
  wp (stakesByEntity 1 "alice") (heap_of [genesis_stake])
    (fun r h' =>
       exists es,
         h' !! r = Some (StakeArray es)
         /\ chronological es
         /\ (length es <= length [genesis_stake])%nat
         /\ forall s, s ∈ es -> exists s0, s0 ∈ [genesis_stake] /\ relabelled "alice" s0 s).
Proof.
  apply (stakesByEntity_events (heap_of [genesis_stake]) 1 [genesis_stake] "alice");
    [reflexivity | repeat constructor].
Defined.

Lemma stakesByEntity_twice_witness :
  wp (let! mine := stakesByEntity 1 "alice" in stakesByEntity mine "alice")
    (heap_of [genesis_stake]) (fun r h' => h' !! r = Some (StakeArray []))
  /\ wp (let! mine := stakesByEntity 1 "alice" in
         getCurrentConvictionByEntity mine "alice" 10 0.9)
       (heap_of [genesis_stake]) (fun r _ => r = 0%float).
Proof.
  apply (stakesByEntity_twice (heap_of [genesis_stake]) 1 [genesis_stake] "alice" "alice"
           10 0.9).
  reflexivity.
Defined.

Lemma getCurrentConvictionByEntity_own_events_witness :
  exists v,
    wp (getCurrentConvictionByEntity 1 "alice" 10 0.9) two_logs (fun r _ => r = v)
    /\ wp (getCurrentConvictionByEntity 2 "alice" 10 0.9) two_logs (fun r _ => r = v).
Proof.
  apply (getCurrentConvictionByEntity_own_events two_logs 1 2 [genesis_stake]
           [mkStake 0 (Some "alice"%string) (number 100) (number 500) (number 7);
            mkStake 1 (Some "bob"%string) (number 400) (number 900) (number 8)]
           "alice" 10 0.9); reflexivity.
Defined.

Lemma single_entity_conviction_witness :
  exists v,
    wp (getCurrentConviction 1 10 0.9) (heap_of [genesis_stake]) (fun r _ => r = v)
    /\ wp (getCurrentConvictionByEntity 1 "alice" 10 0.9) (heap_of [genesis_stake])
         (fun r _ => r = v).
Proof.
  apply (single_entity_conviction (heap_of [genesis_stake]) 1 [] genesis_stake "alice"
           10 0.9).
  - reflexivity.
  - intros s' Hs. apply list_elem_of_singleton in Hs. subst s'. split; reflexivity.
  - split; reflexivity.
Defined.

(** ** The check against the recorded convictions *)

Section Check.
Context `{JSMath}.
Implicit Types (h : heap) (stakes : loc) (ss : list Stake).

Lemma checkConvictionImplementation_spec stakes ss alpha h
    (Q : option (value * float) -> heap -> Prop) :
  h !! stakes = Some (StakeArray ss) ->
  (forall h', h ⊆ h' -> Q (check_report ss alpha) h') ->
  wp (checkConvictionImplementation stakes alpha) h Q.
Proof.
  intros Hs HQ. unfold checkConvictionImplementation.
  apply wp_bind, (convictionFromStakes_spec stakes ss alpha h _ Hs).
  unfold check_report in HQ.
  destruct (replay ss alpha) as [[c t] a]. cbn [fst] in HQ.
  apply wp_bind, (wp_length_stakes stakes ss); [done|].
  destruct ss as [|s0 ss0] using rev_ind.
  - cbn. now apply wp_ret, HQ.
  - rewrite length_app, Nat.add_1_r. cbn [Nat.ltb Nat.leb].
    apply (wp_last_of_copy_stakes stakes (ss0 ++ [s0])); [done|]. intros h' Hsub.
    specialize (HQ h' Hsub). rewrite last_snoc in *. destruct s0 as [t0 e0 ts0 tts0 c0].
    cbn [conviction] in HQ. destruct (strict_neq c0 c); now apply wp_ret.
Qed.

Lemma strict_neq_nan (v : value) (c : float) :
  is_nan (ToNumber v) = true -> strict_neq v c = true.
Proof.
  destruct v as [|f]; [done|]. cbn [ToNumber strict_neq]. intros Hn.
  apply IEEE.is_nan_true_spec in Hn. now rewrite FloatAxioms.eqb_spec, Hn.
Qed.

(** X19: on a log whose events record the conviction accrued by the rule
    of [convictionFromStakes], the replay ends on the last event's recorded
    conviction, time and stake, and, unless that conviction is NaN, the
    check reports nothing. *)
Theorem checkConvictionImplementation_recorded h stakes ss (s : Stake) alpha :
  h !! stakes = Some (StakeArray (ss ++ [s])) ->
  recorded alpha (ss ++ [s]) ->
  is_nan (ToNumber s.(conviction)) = false ->
  wp (convictionFromStakes stakes alpha) h
    (fun r _ => r = (ToNumber s.(conviction), s.(time), s.(totalTokensStaked)))
  /\ wp (checkConvictionImplementation stakes alpha) h (fun r _ => r = None).
Proof.
  intros Hs Hrec Hnan.
  destruct (recorded_last alpha ss s Hrec) as (c & Hc & Hrep).
  rewrite Hc in *. cbn [ToNumber] in *. split.
  - now apply (convictionFromStakes_spec stakes (ss ++ [s])).
  - apply (checkConvictionImplementation_spec stakes (ss ++ [s])); [done|].
    intros h' _. unfold check_report. rewrite last_snoc, Hrep, Hc. cbn [fst strict_neq].
    now rewrite IEEE.eqb_refl_not_nan.
Qed.

(** X20: the check reports nothing on the empty list, and it always
    reports a last event whose recorded conviction is missing or NaN, even
    when the replayed conviction is NaN as well. *)
Theorem checkConvictionImplementation_reports h stakes alpha :
  (h !! stakes = Some (StakeArray []) ->
   wp (checkConvictionImplementation stakes alpha) h (fun r _ => r = None))
  /\ (forall ss (s : Stake),
        h !! stakes = Some (StakeArray (ss ++ [s])) ->
        is_nan (ToNumber s.(conviction)) = true ->
        wp (checkConvictionImplementation stakes alpha) h
          (fun r _ => exists c, r = Some (s.(conviction), c))).
Proof.
  split.
  - intros Hs. now apply (checkConvictionImplementation_spec stakes []).
  - intros ss s Hs Hn. apply (checkConvictionImplementation_spec stakes (ss ++ [s])); [done|].
    intros h' _. unfold check_report. rewrite last_snoc, (strict_neq_nan _ _ Hn). eauto.
Qed.

(** X21: [getConvictionTrend] and [checkConvictionImplementation] leave
    the array they are given, and every other array, as it was. *)
Theorem callers_leave_stakes_unchanged h stakes ss maxConviction time alpha timeUnit :
  h !! stakes = Some (StakeArray ss) ->
  wp (getConvictionTrend stakes maxConviction time alpha timeUnit) h (unchanged h stakes ss)
  /\ wp (checkConvictionImplementation stakes alpha) h (unchanged h stakes ss).
Proof.
  intros Hs. split.
  - unfold getConvictionTrend.
    apply wp_bind, (getCurrentConviction_spec stakes ss); [done|]. intros h1 H1.
    assert (h1 !! stakes = Some (StakeArray ss)) as Hs1 by now apply (lookup_weaken h h1).
    apply wp_bind, (getCurrentConviction_spec stakes ss); [done|]. intros h2 H2.
    apply wp_ret. split; [now apply (lookup_weaken h1 h2) | now transitivity h1].
  - apply (checkConvictionImplementation_spec stakes ss); [done|]. intros h' Hsub.
    split; [now apply (lookup_weaken h h') | done].
Qed.

End Check.

Lemma checkConvictionImplementation_recorded_witness :
  wp (convictionFromStakes 1 0.9) (heap_of [genesis_stake])
    (fun r _ => r = (0%float, 0%Z, number 100))
  /\ wp (checkConvictionImplementation 1 0.9) (heap_of [genesis_stake])
       (fun r _ => r = None).
Proof.
  apply (checkConvictionImplementation_recorded (heap_of [genesis_stake]) 1 []
           genesis_stake 0.9); [reflexivity | split; reflexivity | reflexivity].
Defined.

Lemma callers_leave_stakes_unchanged_witness :
  let h := heap_of [genesis_stake] in
  wp (getConvictionTrend 1 1000 10 0.9 5) h (unchanged h 1 [genesis_stake])
  /\ wp (checkConvictionImplementation 1 0.9) h (unchanged h 1 [genesis_stake]).
Proof.
  apply (callers_leave_stakes_unchanged (heap_of [genesis_stake]) 1 [genesis_stake]
           1000 10 0.9 5).
  reflexivity.
Defined.

(** ** The shape of the history *)

Section HistoryShape.
Context `{JSMath}.
Implicit Types (h : heap) (stakes : loc) (ss : list Stake).

Lemma count_multiples_zero_unit (n : nat) (t : Z) : count_multiples n t 0 = 0%nat.
Proof. revert t. induction n as [|n IH]; intros t; [done|]. cbn. apply IH. Qed.

Lemma conviction_history_zero_unit ss currentTime alpha :
  conviction_history ss currentTime alpha 0 = [].
Proof.
  apply length_zero_iff_nil. unfold conviction_history.
  set (t0 := (currentTime - 50 * 0 - 1)%Z).
  pose proof (pad_length 0 (Z.to_nat (- t0)) t0 [] eq_refl) as Hlen.
  destruct (pad (Z.to_nat (- t0)) 0 t0 []) as [initTime history].
  rewrite samples_length by reflexivity. cbn [fst snd] in *.
  now rewrite Hlen, !count_multiples_zero_unit.
Qed.

(** X22: for [currentTime >= 0] and [timeUnit >= 1], with ticks that are
    safe integers, the history holds
    [50 + floor(currentTime / timeUnit) - floor((currentTime - 2) / timeUnit)]
    samples, one per multiple of [timeUnit] among the ticks from
    [currentTime - 50 * timeUnit - 1] to [currentTime]: between 50 and 52. *)
Theorem getConvictionHistory_sample_count h stakes ss currentTime alpha timeUnit :
  h !! stakes = Some (StakeArray ss) ->
  (0 <= currentTime)%Z -> (1 <= timeUnit)%Z ->
  safe_ticks currentTime timeUnit ->
  wp (getConvictionHistory stakes currentTime alpha timeUnit) h
    (fun r h' =>
       exists history,
         h' !! r = Some (NumberArray history)
         /\ Z.of_nat (length history)
            = (50 + currentTime / timeUnit - (currentTime - 2) / timeUnit)%Z
         /\ (50 <= length history <= 52)%nat).
Proof.
  intros Hs Hc Hu _. apply (getConvictionHistory_spec stakes ss); [done|].
  intros r h' _ _ Hr. eexists. split; [exact Hr|].
  pose proof (conviction_history_length ss currentTime alpha timeUnit Hc ltac:(lia)) as Hlen.
  split; [exact Hlen|].
  assert ((currentTime - 2) / timeUnit <= currentTime / timeUnit)%Z
    by (apply Z.div_le_mono; lia).
  assert (currentTime / timeUnit <= (currentTime - 2) / timeUnit + 2)%Z.
  { rewrite <- Z.div_add by lia. apply Z.div_le_mono; nia. }
  lia.
Qed.

(** X23: with [timeUnit = 0] no tick is a multiple of the unit ([t % 0] is
    NaN): the history is empty, whatever the log and the (safe) time. *)
Theorem getConvictionHistory_zero_timeUnit h stakes ss currentTime alpha :
  h !! stakes = Some (StakeArray ss) ->
  safe_ticks currentTime 0 ->
  wp (getConvictionHistory stakes currentTime alpha 0) h
    (fun r h' => h' !! r = Some (NumberArray [])).
Proof.
  intros Hs _. apply (getConvictionHistory_spec stakes ss); [done|].
  intros r h' _ _ Hr. now rewrite conviction_history_zero_unit in Hr.
Qed.

Lemma pad_zeros (timeUnit : Z) (fuel : nat) : forall initTime history,
  fuel = Z.to_nat (- initTime) ->
  (pad fuel timeUnit initTime history).2 =
  history ++ replicate (count_multiples fuel initTime timeUnit) 0%float.
Proof.
  induction fuel as [|fuel IH]; intros initTime history Hf; cbn [pad count_multiples].
  - now rewrite app_nil_r.
  - destruct (Z.ltb_spec initTime 0); [|lia]. rewrite IH by lia.
    destruct (is_multiple initTime timeUnit); [|done].
    now rewrite <- app_assoc.
Qed.

(** X24: while the proposal is younger than the window
    ([currentTime <= 50 * timeUnit]), with ticks that are safe integers, the
    history starts with
    [49 - floor((currentTime - 2) / timeUnit)] samples that are exactly [0],
    followed by [floor(currentTime / timeUnit) + 1] computed samples, one per
    multiple of [timeUnit] from 0 to [currentTime]. *)
Theorem getConvictionHistory_zero_padding h stakes ss currentTime alpha timeUnit :
  h !! stakes = Some (StakeArray ss) ->
  (0 <= currentTime <= 50 * timeUnit)%Z -> (1 <= timeUnit)%Z ->
  safe_ticks currentTime timeUnit ->
  wp (getConvictionHistory stakes currentTime alpha timeUnit) h
    (fun r h' =>
       exists rest,
         h' !! r = Some (NumberArray
                           (replicate (Z.to_nat (49 - (currentTime - 2) / timeUnit)) 0%float
                            ++ rest))
         /\ Z.of_nat (length rest) = (currentTime / timeUnit + 1)%Z).
Proof.
  intros Hs Hc Hu _. apply (getConvictionHistory_spec stakes ss); [done|].
  intros r h' _ _ Hr. unfold conviction_history in Hr.
  set (t0 := (currentTime - 50 * timeUnit - 1)%Z) in *.
  pose proof (pad_fst timeUnit (Z.to_nat (- t0)) t0 [] eq_refl) as Hfst.
  pose proof (pad_zeros timeUnit (Z.to_nat (- t0)) t0 [] eq_refl) as Hpad.
  destruct (pad (Z.to_nat (- t0)) timeUnit t0 []) as [initTime history].
  cbn [fst snd app] in *. subst history.
  assert (initTime = 0%Z) as -> by lia.
  assert (count_multiples (Z.to_nat (- t0)) t0 timeUnit
          = Z.to_nat (49 - (currentTime - 2) / timeUnit)) as Hk.
  { apply Nat2Z.inj. rewrite count_multiples_div by lia.
    replace (t0 + Z.of_nat (Z.to_nat (- t0)) - 1)%Z with (-1)%Z by lia.
    replace (t0 - 1)%Z with (currentTime - 2 + (-50) * timeUnit)%Z by lia.
    rewrite Z.div_add by lia.
    assert (-1 / timeUnit = -1)%Z as ->
      by (symmetry; apply Z.div_unique with (timeUnit - 1)%Z; lia).
    assert ((currentTime - 2) / timeUnit < 50)%Z by (apply Z.div_lt_upper_bound; lia).
    lia. }
  rewrite Hk in Hr.
  pose proof (samples_length currentTime alpha timeUnit
                (List.filter (fun stake => (time stake >? 0)%Z) ss)
                (Z.to_nat (currentTime - 0 + 1)) 0
                (replicate (Z.to_nat (49 - (currentTime - 2) / timeUnit)) 0%float,
                 checkpoint (List.filter (fun stake => (time stake <=? 0)%Z) ss) 0 alpha)
                eq_refl) as Hlen.
  destruct (samples_extends (Z.to_nat (currentTime - 0 + 1)) currentTime alpha timeUnit
              (List.filter (fun stake => (time stake >? 0)%Z) ss) 0
              (replicate (Z.to_nat (49 - (currentTime - 2) / timeUnit)) 0%float)
              (checkpoint (List.filter (fun stake => (time stake <=? 0)%Z) ss) 0 alpha))
    as [rest Hrest].
  rewrite Hrest in Hr, Hlen. exists rest. split; [exact Hr|].
  cbn [fst] in Hlen. rewrite length_app in Hlen.
  assert (length rest = count_multiples (Z.to_nat (currentTime - 0 + 1)) 0 timeUnit) as ->
    by lia.
  rewrite count_multiples_div by lia.
  replace (0 + Z.of_nat (Z.to_nat (currentTime - 0 + 1)) - 1)%Z with currentTime by lia.
  assert ((0 - 1) / timeUnit = -1)%Z as ->
    by (symmetry; apply Z.div_unique with (timeUnit - 1)%Z; lia).
  lia.
Qed.

(** Without pending events the variables only age: every sample is the
    formula at the age of the tick. *)
Lemma samples_quiet currentTime alpha timeUnit (fuel : nat) : forall t history st,
  fuel = Z.to_nat (currentTime - t + 1) ->
  (samples fuel currentTime alpha timeUnit [] t (history, st)).1 =
  history
  ++ map (fun t' => calculateConviction (st.(timePassed) + (t' - t))
                      (ToNumber st.(lastConv)) (ToNumber st.(oldAmount)) alpha)
       (List.filter (fun t' => is_multiple t' timeUnit) (seqZ t (Z.of_nat fuel))).
Proof.
  induction fuel as [|fuel IH]; intros t history st Hf.
  - cbn. now rewrite app_nil_r.
  - rewrite samples_S. destruct (Z.leb_spec t currentTime); [|lia].
    rewrite seqZ_cons by lia. cbn [List.filter].
    replace (Z.pred (Z.of_nat (S fuel))) with (Z.of_nat fuel) by lia.
    unfold tick. cbn [length consume]. rewrite IH by lia.
    cbn [timePassed lastConv oldAmount i]. unfold Z.succ.
    assert (forall l,
      map (fun t' => calculateConviction (timePassed st + 1 + (t' - (t + 1)))
                       (ToNumber (lastConv st)) (ToNumber (oldAmount st)) alpha) l
      = map (fun t' => calculateConviction (timePassed st + (t' - t))
                       (ToNumber (lastConv st)) (ToNumber (oldAmount st)) alpha) l) as ->.
    { intros l. apply map_ext. intros t'. f_equal. lia. }
    destruct (is_multiple t timeUnit); [|done].
    rewrite <- app_assoc. cbn [app map]. unfold sample.
    now rewrite Z.sub_diag, Z.add_0_r.
Qed.

(** X25: when the ticks are safe integers and every event is older than
    the window, which starts at
    [initTime = currentTime - 50 * timeUnit - 1 >= 0], the sample at each
    multiple [t] of [timeUnit] from [initTime] to [currentTime] is the decay
    over [t - initTime] blocks of the conviction that the last event's
    checkpoint has reached at [initTime], under the last event's stake. *)
Theorem getConvictionHistory_quiet_window h stakes ss (s : Stake)
    currentTime alpha timeUnit initTime :
  h !! stakes = Some (StakeArray (ss ++ [s])) ->
  initTime = (currentTime - 50 * timeUnit - 1)%Z ->
  (0 <= initTime)%Z ->
  safe_ticks currentTime timeUnit ->
  (forall s', s' ∈ ss ++ [s] -> (s'.(time) <= initTime)%Z) ->
  wp (getConvictionHistory stakes currentTime alpha timeUnit) h
    (fun r h' =>
       h' !! r =
       Some (NumberArray
               (map (fun t =>
                       calculateConviction (t - initTime)
                         (calculateConviction (initTime - s.(time))
                            (ToNumber s.(conviction)) (ToNumber s.(totalTokensStaked)) alpha)
                         (ToNumber s.(totalTokensStaked)) alpha)
                  (List.filter (fun t => is_multiple t timeUnit)
                     (seqZ initTime (currentTime - initTime + 1)))))).
Proof.
  intros Hs Hinit H0 _ Hold. apply (getConvictionHistory_spec stakes (ss ++ [s])); [done|].
  intros r h' _ _ Hr. rewrite Hr. do 2 f_equal. unfold conviction_history.
  rewrite <- Hinit. replace (Z.to_nat (- initTime)) with 0%nat by lia. cbn [pad].
  rewrite (filter_all (fun stake => (time stake <=? initTime)%Z)),
    (filter_none (fun stake => (time stake >? initTime)%Z)).
  - rewrite samples_quiet by reflexivity. unfold checkpoint. rewrite last_snoc.
    cbn [app timePassed lastConv oldAmount ToNumber].
    unfold seqZ. rewrite Nat2Z.id. apply map_ext. intros t. f_equal; lia.
  - intros s' Hs'. specialize (Hold s' Hs'). lia.
  - intros s' Hs'. specialize (Hold s' Hs'). lia.
Qed.

Lemma conviction_history_length_events ss ss' currentTime alpha alpha' timeUnit :
  length (conviction_history ss currentTime alpha timeUnit)
  = length (conviction_history ss' currentTime alpha' timeUnit).
Proof.
  unfold conviction_history.
  destruct (pad _ timeUnit (currentTime - 50 * timeUnit - 1) []) as [initTime history].
  now rewrite !samples_length by reflexivity.
Qed.

(** X26: the history of an entity has as many samples as the history of
    the proposal, for every entity and [alpha], and every time and unit whose
    ticks are safe integers. *)
Theorem getConvictionHistoryByEntity_same_length h stakes ss (who : string)
    currentTime alpha timeUnit :
  h !! stakes = Some (StakeArray ss) ->
  safe_ticks currentTime timeUnit ->
  exists n : nat,
    wp (getConvictionHistory stakes currentTime alpha timeUnit) h
      (fun r h' => exists history,
           h' !! r = Some (NumberArray history) /\ length history = n)
    /\ wp (getConvictionHistoryByEntity stakes who currentTime alpha timeUnit) h
         (fun r h' => exists history,
              h' !! r = Some (NumberArray history) /\ length history = n).
Proof.
  intros Hs _. exists (length (conviction_history ss currentTime alpha timeUnit)). split.
  - apply (getConvictionHistory_spec stakes ss); [done|]. intros r h' _ _ Hr. eauto.
  - apply (getConvictionHistoryByEntity_spec stakes ss); [done|]. intros r h' _ _ Hr.
    eexists. split; [exact Hr|]. apply conviction_history_length_events.
Qed.

End HistoryShape.

Lemma getConvictionHistory_sample_count_witness :
  wp (getConvictionHistory 1 7 0.9 5) (heap_of [genesis_stake])
    (fun r h' =>
       exists history,
         h' !! r = Some (NumberArray history)
         /\ Z.of_nat (length history) = (50 + 7 / 5 - (7 - 2) / 5)%Z
         /\ (50 <= length history <= 52)%nat).
Proof.
  apply (getConvictionHistory_sample_count (heap_of [genesis_stake]) 1 [genesis_stake]
           7 0.9 5); [reflexivity | lia | lia | unfold safe_ticks; lia].
Defined.

Lemma getConvictionHistory_zero_timeUnit_witness :
  wp (getConvictionHistory 1 10 0.9 0) (heap_of [genesis_stake])
    (fun r h' => h' !! r = Some (NumberArray [])).
Proof.
  apply (getConvictionHistory_zero_timeUnit (heap_of [genesis_stake]) 1 [genesis_stake]
           10 0.9); [reflexivity | unfold safe_ticks; lia].
Defined.

Lemma getConvictionHistory_zero_padding_witness :
  wp (getConvictionHistory 1 10 0.9 5) (heap_of [genesis_stake])
    (fun r h' =>
       exists rest,
         h' !! r = Some (NumberArray
                           (replicate (Z.to_nat (49 - (10 - 2) / 5)) 0%float ++ rest))
         /\ Z.of_nat (length rest) = (10 / 5 + 1)%Z).
Proof.
  apply (getConvictionHistory_zero_padding (heap_of [genesis_stake]) 1 [genesis_stake]
           10 0.9 5); [reflexivity | lia | lia | unfold safe_ticks; lia].
Defined.

Lemma getConvictionHistory_quiet_window_witness :
  wp (getConvictionHistory 1 100 0.9 1) (heap_of [genesis_stake])
    (fun r h' =>
       h' !! r =
       Some (NumberArray
               (map (fun t =>
                       (calculateConviction (t - 49)
                          (calculateConviction (49 - 0) 0 100 0.9) 100 0.9)%float)
                  (List.filter (fun t => is_multiple t 1) (seqZ 49 (100 - 49 + 1)))))).
Proof.
  apply (getConvictionHistory_quiet_window (heap_of [genesis_stake]) 1 [] genesis_stake
           100 0.9 1 49); [reflexivity | reflexivity | lia | unfold safe_ticks; lia |].
  intros s' Hs. apply list_elem_of_singleton in Hs. subst s'. simpl. lia.
Defined.

Lemma getConvictionHistoryByEntity_same_length_witness :
  exists n : nat,
    wp (getConvictionHistory 1 10 0.9 5) (heap_of [genesis_stake])
      (fun r h' => exists history,
           h' !! r = Some (NumberArray history) /\ length history = n)
    /\ wp (getConvictionHistoryByEntity 1 "bob" 10 0.9 5) (heap_of [genesis_stake])
         (fun r h' => exists history,
              h' !! r = Some (NumberArray history) /\ length history = n).
Proof.
  apply (getConvictionHistoryByEntity_same_length (heap_of [genesis_stake]) 1
           [genesis_stake] "bob" 10 0.9 5); [reflexivity | unfold safe_ticks; lia].
Defined.

(** ** The window of the history *)

Section Window.
Context `{JSMath}.
Implicit Types (h : heap) (stakes : loc) (ss rs fs : list Stake) (st : locals).

(** Events after [currentTime], appended to the pending ones, are never
    taken up. *)
Lemma consume_future history rs fs t currentTime (fuel : nat) : forall (fuel' : nat) st,
  (forall f, f ∈ fs -> (currentTime < f.(time))%Z) -> (t <= currentTime)%Z ->
  (st.(i) <= length rs)%nat ->
  (length rs - st.(i) <= fuel)%nat -> (length rs - st.(i) <= fuel')%nat ->
  consume fuel history (rs ++ fs) t st = consume fuel' history rs t st
  /\ ((consume fuel' history rs t st).(i) <= length rs)%nat.
Proof.
  induction fuel as [|fuel IH]; intros fuel' st Hfs Ht Hi Hfuel Hfuel'.
  - assert (i st = length rs) as Hlen by lia.
    destruct fuel' as [|fuel']; cbn [consume]; [split; [done | lia]|].
    rewrite (lookup_ge_None_2 rs (i st)) by lia. split; [done | lia].
  - cbn [consume]. destruct (decide (i st < length rs)%nat) as [Hlt|Hge].
    + rewrite lookup_app_l by done.
      destruct fuel' as [|fuel']; [lia|]. cbn [consume].
      destruct (rs !! i st) as [s|] eqn:Hs; [|split; [done | lia]].
      destruct (time s <=? t)%Z; [|split; [done | lia]].
      apply IH; cbn [i]; try done; lia.
    + assert (i st = length rs) as Hlen by lia.
      rewrite lookup_app_r by lia. rewrite Hlen, Nat.sub_diag.
      assert (consume fuel' history rs t st = st) as ->.
      { destruct fuel' as [|fuel']; [done|]. cbn [consume].
        now rewrite (lookup_ge_None_2 rs (i st)) by lia. }
      split; [|lia].
      destruct (fs !! 0%nat) as [f|] eqn:Hf; [|done].
      apply list_elem_of_lookup_2 in Hf. specialize (Hfs f Hf).
      destruct (Z.leb_spec (time f) t); [lia | done].
Qed.

Lemma samples_future currentTime alpha timeUnit rs fs (fuel : nat) : forall t history st,
  (forall f, f ∈ fs -> (currentTime < f.(time))%Z) ->
  (st.(i) <= length rs)%nat ->
  samples fuel currentTime alpha timeUnit (rs ++ fs) t (history, st)
  = samples fuel currentTime alpha timeUnit rs t (history, st).
Proof.
  induction fuel as [|fuel IH]; intros t history st Hfs Hi; [done|].
  rewrite !samples_S. destruct (Z.leb_spec t currentTime) as [Ht|]; [|done].
  unfold tick.
  set (history' := if is_multiple t timeUnit then history ++ [sample alpha st] else history).
  destruct (consume_future history' rs fs t currentTime (length (rs ++ fs)) (length rs) st
              Hfs Ht Hi) as [-> Hi']; [rewrite length_app; lia | lia |].
  now apply IH.
Qed.

Lemma filter_app_bool {A} (p : A -> bool) (l1 l2 : list A) :
  List.filter p (l1 ++ l2) = List.filter p l1 ++ List.filter p l2.
Proof. apply List.filter_app. Qed.

Lemma conviction_history_window ss (s : Stake) rs fs currentTime alpha timeUnit :
  (0 <= currentTime)%Z -> (0 <= timeUnit)%Z ->
  (forall s', s' ∈ ss ++ [s] -> (s'.(time) <= Z.max 0 (currentTime - 50 * timeUnit - 1))%Z) ->
  (forall r, r ∈ rs -> (Z.max 0 (currentTime - 50 * timeUnit - 1) < r.(time))%Z) ->
  (forall f, f ∈ fs -> (currentTime < f.(time))%Z) ->
  conviction_history (ss ++ [s] ++ rs ++ fs) currentTime alpha timeUnit
  = conviction_history ([s] ++ rs) currentTime alpha timeUnit.
Proof.
  intros Hc Hu Hold Hrecent Hfuture. unfold conviction_history.
  set (t0 := (currentTime - 50 * timeUnit - 1)%Z) in *.
  pose proof (pad_fst timeUnit (Z.to_nat (- t0)) t0 [] eq_refl) as Hfst.
  destruct (pad (Z.to_nat (- t0)) timeUnit t0 []) as [initTime history].
  cbn [fst] in Hfst.
  assert (initTime = Z.max 0 t0) as Hinit by lia.
  rewrite <- Hinit in *. clear Hfst.
  assert (initTime <= currentTime)%Z as Hle by lia.
  set (old := fun stake : Stake => (time stake <=? initTime)%Z).
  set (recent := fun stake : Stake => (time stake >? initTime)%Z).
  assert (forall s', s' ∈ ss ++ [s] -> old s' = true /\ recent s' = false) as Ho.
  { intros s' Hs'. specialize (Hold s' Hs'). unfold old, recent. lia. }
  assert (forall r, r ∈ rs ++ fs -> old r = false /\ recent r = true) as Hr.
  { intros r [Hr|Hr]%elem_of_app; unfold old, recent.
    - specialize (Hrecent r Hr). lia.
    - specialize (Hfuture r Hr). lia. }
  assert (List.filter old (ss ++ [s] ++ rs ++ fs) = ss ++ [s]) as ->.
  { rewrite app_assoc, filter_app_bool, filter_all, filter_none by (intros; now apply Ho || now apply Hr).
    apply app_nil_r. }
  assert (List.filter recent (ss ++ [s] ++ rs ++ fs) = rs ++ fs) as ->.
  { rewrite app_assoc, filter_app_bool, filter_none, filter_all by (intros; now apply Ho || now apply Hr).
    done. }
  assert (List.filter old ([s] ++ rs) = [s]) as ->.
  { rewrite filter_app_bool, filter_all, filter_none; [apply app_nil_r | |].
    - intros r Hr'. apply Hr, elem_of_app. now left.
    - intros s' Hs'. apply Ho, elem_of_app. now right. }
  assert (List.filter recent ([s] ++ rs) = rs) as ->.
  { rewrite filter_app_bool, filter_none, filter_all; [done | |].
    - intros r Hr'. apply Hr, elem_of_app. now left.
    - intros s' Hs'. apply Ho, elem_of_app. now right. }
  rewrite samples_future; [|done|rewrite checkpoint_i; lia].
  unfold checkpoint. now rewrite last_snoc.
Qed.

(** X27: while the ticks are safe integers, the history is determined by
    the last event at or before the start of the window and the events inside
    the window: events before that last one, and events after [currentTime]
    at the end of the log, change nothing. *)
Theorem getConvictionHistory_window h (a b : loc) ss (s : Stake) rs fs
    currentTime alpha timeUnit :
  h !! a = Some (StakeArray (ss ++ [s] ++ rs ++ fs)) ->
  h !! b = Some (StakeArray ([s] ++ rs)) ->
  (0 <= currentTime)%Z -> (0 <= timeUnit)%Z ->
  safe_ticks currentTime timeUnit ->
  (forall s', s' ∈ ss ++ [s] -> (s'.(time) <= Z.max 0 (currentTime - 50 * timeUnit - 1))%Z) ->
  (forall r, r ∈ rs -> (Z.max 0 (currentTime - 50 * timeUnit - 1) < r.(time))%Z) ->
  (forall f, f ∈ fs -> (currentTime < f.(time))%Z) ->
  exists history,
    wp (getConvictionHistory a currentTime alpha timeUnit) h
      (fun r h' => h' !! r = Some (NumberArray history))
    /\ wp (getConvictionHistory b currentTime alpha timeUnit) h
         (fun r h' => h' !! r = Some (NumberArray history)).
Proof.
  intros Ha Hb Hc Hu _ Hold Hrecent Hfuture.
  exists (conviction_history ([s] ++ rs) currentTime alpha timeUnit). split.
  - apply (getConvictionHistory_spec a (ss ++ [s] ++ rs ++ fs)); [done|].
    intros r h' _ _ Hr. now rewrite conviction_history_window in Hr.
  - now apply (getConvictionHistory_spec b ([s] ++ rs)).
Qed.
End Window.

Lemma getConvictionHistory_window_witness :
  exists history,
    wp (getConvictionHistory 1 100 0.9 1) window_logs
      (fun r h' => h' !! r = Some (NumberArray history))
    /\ wp (getConvictionHistory 2 100 0.9 1) window_logs
         (fun r h' => h' !! r = Some (NumberArray history)).
Proof.
  apply (getConvictionHistory_window window_logs 1 2
           [genesis_stake]
           (mkStake 10 (Some "alice"%string) (number 200) (number 200) (number 651))
           [mkStake 70 (Some "bob"%string) (number 50) (number 250) (number 1990)]
           [mkStake 200 (Some "bob"%string) (number 0) (number 200) (number 2400)]
           100 0.9 1); [reflexivity | reflexivity | lia | lia | unfold safe_ticks; lia | | |].
  - intros s' Hs. apply elem_of_app in Hs as [Hs|Hs];
      apply list_elem_of_singleton in Hs; subst s'; simpl; lia.
  - intros r Hr. apply list_elem_of_singleton in Hr. subst r. simpl. lia.
  - intros f Hf. apply list_elem_of_singleton in Hf. subst f. simpl. lia.
Defined.
